(** * LED video wall calculator: requirement engine and resource distribution

    A shallow embedding of [utils.ts] ([calculateRequirements]),
    [constants.ts], the [results] memo of [App.tsx] and the grouping logic
    of [components/Visualizer.tsx] ([generateAssignments], [gridData],
    [breakdown]), followed by the properties established about them.

    Number model.  A JavaScript [number] is modelled by an exact rational
    ([Q]); the values the source obtains through [Math.ceil], [Math.floor]
    and [Math.round], and every value computed from those by [+], [-], [*],
    are integers and are kept in [Z].  Rationals are compared with [==].
    A division whose divisor is a program variable that can be zero is a
    checked division: JavaScript yields [Infinity] or [NaN] there, which the
    rationals do not represent, so the model stops with [None].  [NaN]
    and the limits of the machine (the precision of a double, the largest
    array length) are outside the model. *)

From Stdlib Require Import ZArith QArith Qround Qminmax Lia Lqa String Sorted.
From stdpp Require Import base list list_numbers sorting.

(** ** JavaScript primitives used by the source *)

Module Js.
Local Open Scope Q_scope.

Definition Math_floor (q : Q) : Z := Qfloor q.

Definition Math_ceil (q : Q) : Z := Qceiling q.

(** [Math.round] takes the nearest integer and resolves ties upwards. *)
Definition Math_round (q : Q) : Z := Qfloor (q + 0.5).

(** [a / b] for a divisor that may vanish. *)
Definition div (a b : Q) : option Q :=
  if Qeq_bool b 0 then None else Some (a / b)%Q.

(** [xs.find(pred)]: the first element satisfying [pred], else [undefined]. *)
Fixpoint find {A} (pred : A -> bool) (xs : list A) : option A :=
  match xs with
  | [] => None
  | x :: rest => if pred x then Some x else find pred rest
  end.

(** [found || fallback] on numbers: [undefined] and [0] are falsy. *)
Definition or_else (found : option Z) (fallback : Z) : Z :=
  match found with
  | Some v => if (v =? 0)%Z then fallback else v
  | None => fallback
  end.

(** [xs[xs.length - 1]] of a table; [undefined] (here [0], which callers
    never reach on the literal tables) when the table is empty. *)
Definition last_of (xs : list Z) : Z := List.last xs 0%Z.

(** [arr.slice(from, to)] for [0 <= from <= to]. *)
Definition slice {A} (arr : list A) (from to : nat) : list A :=
  take (to - from) (drop from arr).

End Js.

Notation "'let?' x := e1 'in' e2" :=
  (match e1 with Some x => e2 | None => None end)
  (at level 10, x name, e1 at level 100, e2 at level 200,
   format "'[v' 'let?'  x  :=  e1  'in' '/' e2 ']'").

(** ** constants.ts *)

Module Constants.
Local Open Scope Q_scope.

Definition PIXEL_PITCHES : list Q :=
  [1.25; 1.56; 1.95; 2.5; 2.6; 2.9; 3.91]%Q.

Definition MAX_PIXELS_PER_PORT : Q := 650000.
Definition SAFE_CAPACITY_PERCENTAGE : Q := 0.85.
Definition SAFE_PIXELS_PER_PORT : Q :=
  MAX_PIXELS_PER_PORT * SAFE_CAPACITY_PERCENTAGE.

Inductive Environment := indoor | outdoor.

Record PowerSpec := {
  peakWattsPerPanel : Z;
  avgWattsPerPanel : Z
}.

Definition POWER_SPECS (environment : Environment) : PowerSpec :=
  match environment with
  | indoor => {| peakWattsPerPanel := 250; avgWattsPerPanel := 100 |}
  | outdoor => {| peakWattsPerPanel := 500; avgWattsPerPanel := 200 |}
  end.

Definition STANDARD_BREAKER_SIZES : list Z :=
  [20; 30; 40; 50; 60; 70; 80; 100; 125; 150; 175; 200; 225; 250; 300;
   350; 400; 500; 600; 800; 1000; 1200]%Z.

End Constants.

(** ** types.ts and utils.ts *)

Module Utils.
Import Js Constants.
Local Open Scope string_scope.
Local Open Scope Q_scope.

Record CalculationResult := {
  pitch : Q;
  resolutionWidth : Z;
  resolutionHeight : Z;
  resolutionClass : string;
  totalPixels : Z;
  lanPorts : Z;
  controller : string;
  peakPowerWatts : Z;
  avgPowerWatts : Z;
  amps220v : Q;
  circuits220v : Z;
  mainBreakerSize : Z;
  areaSqM : Q;
  cabinetsWidth : Z;
  cabinetsHeight : Z;
  totalCabinets : Z
}.

Definition calculateRequirements
    (widthMm heightMm pitch : Q) (environment : Environment)
    : option CalculationResult :=
  (* 1. Cabinets (500mm x 1000mm) *)
  let CABINET_WIDTH_MM : Q := 500 in
  let CABINET_HEIGHT_MM : Q := 1000 in
  let cabinetsWidth := Math_ceil (widthMm / CABINET_WIDTH_MM) in
  let cabinetsHeight := Math_ceil (heightMm / CABINET_HEIGHT_MM) in
  let totalCabinets := (cabinetsWidth * cabinetsHeight)%Z in
  (* 2. Resolution & Pixels *)
  let? wOverPitch := div widthMm pitch in
  let? hOverPitch := div heightMm pitch in
  let resolutionWidth := Math_round wOverPitch in
  let resolutionHeight := Math_round hOverPitch in
  let totalPixels := (resolutionWidth * resolutionHeight)%Z in
  let? cabWOverPitch := div CABINET_WIDTH_MM pitch in
  let? cabHOverPitch := div CABINET_HEIGHT_MM pitch in
  let pixelsPerCabinetW := Math_round cabWOverPitch in
  let pixelsPerCabinetH := Math_round cabHOverPitch in
  let pixelsPerCabinet := (pixelsPerCabinetW * pixelsPerCabinetH)%Z in
  (* 3. Resolution Class *)
  let longSide := Z.max resolutionWidth resolutionHeight in
  let shortSide := Z.min resolutionWidth resolutionHeight in
  let resolutionClass :=
    if (7680 <=? longSide)%Z && (4320 <=? shortSide)%Z then "8K"
    else if (3840 <=? longSide)%Z && (2160 <=? shortSide)%Z then "4K"
    else if (2560 <=? longSide)%Z && (1440 <=? shortSide)%Z then "QHD"
    else if (1920 <=? longSide)%Z && (1080 <=? shortSide)%Z then "FHD"
    else if (1280 <=? longSide)%Z && (720 <=? shortSide)%Z then "HD"
    else "SD" in
  (* 4. LAN Ports *)
  let? safeOverCabinet :=
    div SAFE_PIXELS_PER_PORT (inject_Z pixelsPerCabinet) in
  let maxCabinetsPerPort := Math_floor safeOverCabinet in
  let effectiveCabinetsPerPort := Z.max 1 maxCabinetsPerPort in
  let lanPorts :=
    Math_ceil (inject_Z totalCabinets / inject_Z effectiveCabinetsPerPort) in
  (* 5. Controller Logic *)
  let controller :=
    if (lanPorts =? 1)%Z then "TB20"
    else if (lanPorts <=? 2)%Z then "MCTRL300"
    else if (lanPorts <=? 4)%Z then "MCTRL600"
    else if (lanPorts <=? 16)%Z then "VX16s"
    else "Multiple VX16s" in
  (* 6. Power *)
  let specs := POWER_SPECS environment in
  let peakPowerWatts := (totalCabinets * peakWattsPerPanel specs)%Z in
  let avgPowerWatts := (totalCabinets * avgWattsPerPanel specs)%Z in
  let amps220v := (inject_Z peakPowerWatts / 220)%Q in
  (* 7. Circuits *)
  let ampsPerCabinet := (inject_Z (peakWattsPerPanel specs) / 220)%Q in
  let SAFE_LOAD_FACTOR : Q := 0.8 in
  let safeAmpsPerCircuit := (20 * SAFE_LOAD_FACTOR)%Q in
  let maxCabinetsPerCircuit :=
    Math_floor (safeAmpsPerCircuit / ampsPerCabinet) in
  let effectiveCabinetsPerCircuit := Z.max 1 maxCabinetsPerCircuit in
  let circuits220v :=
    Math_ceil
      (inject_Z totalCabinets / inject_Z effectiveCabinetsPerCircuit) in
  (* Main Breaker *)
  let requiredMainAmps := (amps220v * 1.25)%Q in
  let mainBreakerSize :=
    or_else
      (find (fun size => Qle_bool requiredMainAmps (inject_Z size))
            STANDARD_BREAKER_SIZES)
      (last_of STANDARD_BREAKER_SIZES) in
  (* 8. Area *)
  let widthM := (widthMm / 1000)%Q in
  let heightM := (heightMm / 1000)%Q in
  let areaSqM := (widthM * heightM)%Q in
  Some {|
    pitch := pitch;
    resolutionWidth := resolutionWidth;
    resolutionHeight := resolutionHeight;
    resolutionClass := resolutionClass;
    totalPixels := totalPixels;
    lanPorts := lanPorts;
    controller := controller;
    peakPowerWatts := peakPowerWatts;
    avgPowerWatts := avgPowerWatts;
    amps220v := amps220v;
    circuits220v := circuits220v;
    mainBreakerSize := mainBreakerSize;
    areaSqM := areaSqM;
    cabinetsWidth := cabinetsWidth;
    cabinetsHeight := cabinetsHeight;
    totalCabinets := totalCabinets
  |}.

End Utils.

(** ** App.tsx: the [results] memo *)

Module App.
Import Js Constants Utils.

(** The state of a dimension field: a number, or the empty string. *)
Inductive Field := Empty | Num (n : Q).

(** [Number(field)]; [Number('')] is [0]. *)
Definition Number (f : Field) : Q :=
  match f with Empty => 0 | Num n => n end.

(** [!n] on a number: only [0] is falsy. *)
Definition falsy (n : Q) : bool := Qeq_bool n 0.

Definition results (width height : Field) (environment : Environment)
    : list (option CalculationResult) :=
  let w := Number width in
  let h := Number height in
  if falsy w || falsy h then []
  else
    List.map (fun pitch => calculateRequirements w h pitch environment)
             PIXEL_PITCHES.

(** [selectedResult]: [results.find(r => r.pitch === selectedPitch) || null],
    with [None] for [null] on both sides.  No result has the pitch
    [null]; an entry of [results] that the model could not compute is
    never the one found. *)
Definition selectedResult (results : list (option CalculationResult))
    (selectedPitch : option Q) : option CalculationResult :=
  match selectedPitch with
  | None => None
  | Some p =>
      match
        find (fun r => match r with
                       | Some r => Qeq_bool (pitch r) p
                       | None => false
                       end) results
      with
      | Some r => r
      | None => None
      end
  end.

End App.

(** ** components/Visualizer.tsx: grouping logic *)

Module Visualizer.
Import Js Constants Utils.
Local Open Scope Z_scope.

(** *** [gridData] *)

(** [arr[i]]: [undefined] outside the array. *)
Definition at_index {A} (arr : list A) (i : Z) : option A :=
  if i <? 0 then None else arr !! Z.to_nat i.

(** One turn of the inner loop of [generateAssignments], on the pair
    of the array and the cursor [currentItem]. *)
Definition assignOne (totalItems i : Z) (st : list Z * Z) : list Z * Z :=
  let '(assignments, currentItem) := st in
  if currentItem <? totalItems
  then (<[Z.to_nat currentItem := i]> assignments, currentItem + 1)
  else (assignments, currentItem).

(** [new Array(totalItems)] raises a [RangeError] on a negative length:
    that is the [None] below.  [baseSize] and [remainder] are only read
    inside the loop over the groups, which has no turn unless
    [groupCount >= 1]. *)
Definition generateAssignments (totalItems groupCount : Z)
    : option (list Z) :=
  if totalItems <? 0 then None
  else
    let assignments := replicate (Z.to_nat totalItems) 0 in
    let currentItem := 0 in
    let baseSize :=
      Math_floor (inject_Z totalItems / inject_Z groupCount) in
    let remainder := Z.rem totalItems groupCount in
    let '(assignments, _) :=
      fold_left
        (fun st i =>
           (* Distribute remainder one by one to the first groups *)
           let count := if i <? remainder then baseSize + 1 else baseSize in
           Nat.iter (Z.to_nat count) (assignOne totalItems i) st)
        (seqZ 0 groupCount)
        (assignments, currentItem) in
    Some assignments.

Record Cell := {
  x : Z;
  y : Z;
  snakeIndex : Z;
  portId : option Z;
  circuitId : option Z
}.

(** The linear index of the cell in column [x], row [y], along the
    vertical snake: the expression assigned to the local [snakeIndex]. *)
Definition snakeIndexOf (cabinetsHeight x y : Z) : Z :=
  if Z.rem x 2 =? 0
  then (x * cabinetsHeight) + y
  else (x * cabinetsHeight) + (cabinetsHeight - 1 - y).

(** The two nested loops that fill [cells]: rows outside, columns inside. *)
Definition gridCells (cabinetsWidth cabinetsHeight : Z)
    (portAssignments circuitAssignments : list Z) : list Cell :=
  y ← seqZ 0 cabinetsHeight;
  x ← seqZ 0 cabinetsWidth;
  let snakeIndex := snakeIndexOf cabinetsHeight x y in
  [ {| x := x;
       y := y;
       snakeIndex := snakeIndex;
       portId := at_index portAssignments snakeIndex;
       circuitId := at_index circuitAssignments snakeIndex |} ].

Definition gridData (data : CalculationResult) : option (list Cell) :=
  let? portAssignments :=
    generateAssignments (totalCabinets data) (lanPorts data) in
  let? circuitAssignments :=
    generateAssignments (totalCabinets data) (circuits220v data) in
  Some (gridCells (cabinetsWidth data) (cabinetsHeight data)
                  portAssignments circuitAssignments).

(** *** [breakdown]: grouping the circuits into MCCBs *)

Module Circuit.
Record t := { id : Z; count : Z; watts : Q; amps : Q }.
End Circuit.

Module Mccb.
Record t := {
  id : Z;
  circuits : list Circuit.t;
  totalAmps : Q;
  size : Z
}.
End Mccb.

Definition CIRCUITS_PER_MCCB : nat := 6.

Definition standardSizes : list Z :=
  [32; 40; 63; 80; 100; 125; 160; 200; 250; 400].

(** The body of the loop, for the chunk that starts at index [i]. *)
Definition mccbAt (activeCircuits : list Circuit.t) (i : nat) : Mccb.t :=
  let groupCircuits := slice activeCircuits i (i + CIRCUITS_PER_MCCB) in
  let totalAmps :=
    fold_left (fun sum c => (sum + Circuit.amps c)%Q) groupCircuits 0%Q in
  (* Calculate suggested MCCB size *)
  let required := (totalAmps * 1.25)%Q in
  let size :=
    or_else
      (find (fun s => Qle_bool required (inject_Z s)) standardSizes) 400 in
  {| Mccb.id :=
       Math_floor (inject_Z (Z.of_nat i)
                   / inject_Z (Z.of_nat CIRCUITS_PER_MCCB)) + 1;
     Mccb.circuits := groupCircuits;
     Mccb.totalAmps := totalAmps;
     Mccb.size := size |}.

(** [for (let i = ...; i < activeCircuits.length; i += CIRCUITS_PER_MCCB)],
    with the number of turns bounded by [fuel]. *)
Fixpoint mccbLoop (fuel : nat) (activeCircuits : list Circuit.t)
    (i : nat) (mccbGroups : list Mccb.t) : list Mccb.t :=
  match fuel with
  | O => mccbGroups
  | S fuel' =>
      if (i <? length activeCircuits)%nat
      then mccbLoop fuel' activeCircuits (i + CIRCUITS_PER_MCCB)
                    (mccbGroups ++ [mccbAt activeCircuits i])
      else mccbGroups
  end.

(** The loop started at [i = 0] on an empty [mccbGroups]; it advances by
    6 each turn, so it never takes more than [length activeCircuits]
    turns. *)
Definition mccbGroups (activeCircuits : list Circuit.t) : list Mccb.t :=
  mccbLoop (length activeCircuits) activeCircuits 0 [].

(** *** [breakdown]: counting the cabinets of each port and circuit *)

Module Counter.
Record t := { id : Z; count : Z }.
End Counter.

Module Port.
Record t := { id : Z; count : Z; pixels : Z; percentage : Q }.
End Port.

Module Breakdown.
Record t := {
  ports : list Port.t;
  circuits : list Circuit.t;
  mccbs : list Mccb.t
}.
End Breakdown.

(** [if (id > maxId) maxId = id]; the test fails on [undefined]. *)
Definition raiseMax (maxId : Z) (id : option Z) : Z :=
  match id with
  | Some i => if maxId <? i then i else maxId
  | None => maxId
  end.

(** [for (let i = 0; i <= maxId; i++) counters.push({id: i, count: 0})]. *)
Definition newCounters (maxId : Z) : list Counter.t :=
  (fun i => {| Counter.id := i; Counter.count := 0 |}) <$> seqZ 0 (maxId + 1).

(** [if (counters[id]) counters[id].count++]: nothing happens when
    [counters[id]] is [undefined]. *)
Definition countUp (counters : list Counter.t) (id : option Z)
    : list Counter.t :=
  match id with
  | Some i =>
      if i <? 0 then counters
      else
        alter (fun c => {| Counter.id := Counter.id c;
                           Counter.count := Counter.count c + 1 |})
              (Z.to_nat i) counters
  | None => counters
  end.

(** [active.map(f)] where [f] reads a quotient computed beforehand: the
    quotient is needed only if there is an element to map. *)
Definition mapWith {A B} (quotient : option Q) (f : Q -> A -> B)
    (active : list A) : option (list B) :=
  match active with
  | [] => Some []
  | _ => let? q := quotient in Some (List.map (f q) active)
  end.

Definition breakdown (cells : list Cell) (data : CalculationResult)
    : option Breakdown.t :=
  (* Find max IDs to initialize arrays *)
  let '(maxPortId, maxCircuitId) :=
    fold_left
      (fun '(maxPortId, maxCircuitId) c =>
         (raiseMax maxPortId (portId c), raiseMax maxCircuitId (circuitId c)))
      cells (0, 0) in
  let ports := newCounters maxPortId in
  let circuits := newCounters maxCircuitId in
  (* Count from actual grid cells to be accurate with snake logic *)
  let '(ports, circuits) :=
    fold_left
      (fun '(ports, circuits) cell =>
         (countUp ports (portId cell), countUp circuits (circuitId cell)))
      cells (ports, circuits) in
  let pixelsPerCabinet :=
    div (inject_Z (totalPixels data)) (inject_Z (totalCabinets data)) in
  let wattsPerCabinet :=
    div (inject_Z (peakPowerWatts data)) (inject_Z (totalCabinets data)) in
  let? activePorts :=
    mapWith pixelsPerCabinet
      (fun pixelsPerCabinet p =>
         {| Port.id := Counter.id p;
            Port.count := Counter.count p;
            Port.pixels :=
              Math_round (inject_Z (Counter.count p) * pixelsPerCabinet);
            Port.percentage :=
              (inject_Z
                 (Math_round (inject_Z (Counter.count p) * pixelsPerCabinet))
               / MAX_PIXELS_PER_PORT * 100)%Q |})
      (List.filter (fun p => 0 <? Counter.count p) ports) in
  let? activeCircuits :=
    mapWith wattsPerCabinet
      (fun wattsPerCabinet c =>
         {| Circuit.id := Counter.id c;
            Circuit.count := Counter.count c;
            Circuit.watts := (inject_Z (Counter.count c) * wattsPerCabinet)%Q;
            Circuit.amps :=
              (inject_Z (Counter.count c) * wattsPerCabinet / 220)%Q |})
      (List.filter (fun c => 0 <? Counter.count c) circuits) in
  Some {| Breakdown.ports := activePorts;
          Breakdown.circuits := activeCircuits;
          Breakdown.mccbs := mccbGroups activeCircuits |}.

(** *** Borders between groups: [getNeighborId] and the four edge tests *)

Module ViewMode.
Inductive t := physical | data | power.
End ViewMode.

(** [viewMode === 'data' ? cell.portId : cell.circuitId]. *)
Definition shownId (viewMode : ViewMode.t) (cell : Cell) : option Z :=
  match viewMode with
  | ViewMode.data => portId cell
  | _ => circuitId cell
  end.

(** The outer [None] is the [TypeError] of reading a property of
    [gridData.cells[neighborIndex]] when that entry is [undefined]; the
    inner option is the id read, which can itself be [undefined]. *)
Definition getNeighborId (viewMode : ViewMode.t) (data : CalculationResult)
    (cells : list Cell) (cell : Cell) (dx dy : Z) : option (option Z) :=
  let nx := x cell + dx in
  let ny := y cell + dy in
  if (nx <? 0) || (cabinetsWidth data <=? nx)
     || (ny <? 0) || (cabinetsHeight data <=? ny)
  then Some (Some (-2)) (* Edge of screen *)
  else
    let neighborIndex := ny * cabinetsWidth data + nx in
    match at_index cells neighborIndex with
    | None => None
    | Some neighbor => Some (shownId viewMode neighbor)
    end.

Record Edges := {
  isTopEdge : bool;
  isBottomEdge : bool;
  isLeftEdge : bool;
  isRightEdge : bool
}.

(** The boundary checks of the data and power modes; [a !== b] on ids. *)
Definition boundaryChecks (viewMode : ViewMode.t) (data : CalculationResult)
    (cells : list Cell) (cell : Cell) : option Edges :=
  let currentId := shownId viewMode cell in
  let? top := getNeighborId viewMode data cells cell 0 (-1) in
  let? bottom := getNeighborId viewMode data cells cell 0 1 in
  let? left := getNeighborId viewMode data cells cell (-1) 0 in
  let? right := getNeighborId viewMode data cells cell 1 0 in
  Some {| isTopEdge := bool_decide (top <> currentId);
          isBottomEdge := bool_decide (bottom <> currentId);
          isLeftEdge := bool_decide (left <> currentId);
          isRightEdge := bool_decide (right <> currentId) |}.

(** *** Scale of the scene and zoom *)

Definition PERSON_HEIGHT_M : Q := 1.65.
Definition PERSON_WIDTH_EST_M : Q := 0.8.
Definition GAP_M : Q := 1.0.

(** What the scale reads of the browser: the fullscreen state and the
    size of the window. *)
Record Viewport := {
  isFullscreen : bool;
  innerWidth : Q;
  innerHeight : Q
}.

Definition CONTAINER_WIDTH (v : Viewport) : Q :=
  if isFullscreen v then innerWidth v else 500.
Definition CONTAINER_HEIGHT (v : Viewport) : Q :=
  if isFullscreen v then innerHeight v else 320.
Definition MAX_PPM (v : Viewport) : Q :=
  if isFullscreen v then 200 else 80.

Record Scene := {
  ppm : Q;
  personHeightPx : Q;
  screenWidthPx : Q;
  screenHeightPx : Q;
  gapPx : Q
}.

Definition scene (v : Viewport) (widthMm heightMm zoomMult : Q)
    : option Scene :=
  let widthM := (widthMm / 1000)%Q in
  let heightM := (heightMm / 1000)%Q in
  (* Scale Calculation *)
  let totalSceneWidthM := (PERSON_WIDTH_EST_M + GAP_M + widthM)%Q in
  let totalSceneHeightM := Qmax PERSON_HEIGHT_M heightM in
  let? scaleX := div (CONTAINER_WIDTH v) totalSceneWidthM in
  let? scaleY := div (CONTAINER_HEIGHT v) totalSceneHeightM in
  let basePPM := Qmin (Qmin scaleX scaleY) (MAX_PPM v) in
  let ppm := (basePPM * zoomMult)%Q in
  (* Dimensions in Pixels *)
  Some {| ppm := ppm;
          personHeightPx := (PERSON_HEIGHT_M * ppm)%Q;
          screenWidthPx := (widthM * ppm)%Q;
          screenHeightPx := (heightM * ppm)%Q;
          gapPx := (GAP_M * ppm)%Q |}.

(** The three zoom buttons, as updates of [zoomMult]. *)
Inductive ZoomButton := ZoomOut | ResetZoom | ZoomIn.

Definition setZoomMult (button : ZoomButton) (z : Q) : Q :=
  match button with
  | ZoomOut => Qmax 0.5 (z - 0.1)
  | ResetZoom => 1.0
  | ZoomIn => Qmin 3.0 (z + 0.1)
  end.

(** [zoomMult] after a sequence of clicks, from its initial value 1.0. *)
Definition zoomAfter (clicks : list ZoomButton) : Q :=
  fold_left (fun z button => setZoomMult button z) clicks 1.0%Q.

End Visualizer.

(** ** Vocabulary of the properties

    Closed forms of locals of the source and the predicates the
    statements below are phrased with. *)

Module Derived.
Import Js Constants Utils Visualizer.

(** The value of the local [pixelsPerCabinet] of
    [calculateRequirements], as a function of the pitch. *)
Definition pixelsPerCabinet (pitch : Q) : Z :=
  (Math_round (500 / pitch) * Math_round (1000 / pitch))%Z.

(** The value of the local [effectiveCabinetsPerPort]. *)
Definition effectiveCabinetsPerPort (pitch : Q) : Z :=
  Z.max 1
    (Math_floor (SAFE_PIXELS_PER_PORT / inject_Z (pixelsPerCabinet pitch))).

(** The value of the local [effectiveCabinetsPerCircuit]. *)
Definition effectiveCabinetsPerCircuit (environment : Environment) : Z :=
  Z.max 1
    (Math_floor
       ((20 * 0.8)
        / (inject_Z (peakWattsPerPanel (POWER_SPECS environment)) / 220))).

(** The value of the local [requiredMainAmps], from the result record. *)
Definition requiredMainAmps (r : CalculationResult) : Q :=
  (amps220v r * 1.25)%Q.

(** [size] is the least entry of [table] that is at least [target]. *)
Definition least_at_least (table : list Z) (target : Q) (size : Z) : Prop :=
  size ∈ table /\ (target <= inject_Z size)%Q /\
  forall s, s ∈ table -> (target <= inject_Z s)%Q -> (size <= s)%Z.

(** No entry of [table] reaches [target]. *)
Definition none_at_least (table : list Z) (target : Q) : Prop :=
  forall s, s ∈ table -> (inject_Z s < target)%Q.

(** The result of scenario A (5000 x 3000 mm, pitch 2.5, indoor). *)
Definition scenarioA : CalculationResult :=
  {| pitch := 2.5;
     resolutionWidth := 2000;
     resolutionHeight := 1200;
     resolutionClass := "FHD";
     totalPixels := 2400000;
     lanPorts := 5;
     controller := "VX16s";
     peakPowerWatts := 7500;
     avgPowerWatts := 3000;
     amps220v := 7500 / 220;
     circuits220v := 3;
     mainBreakerSize := 50;
     areaSqM := 15;
     cabinetsWidth := 10;
     cabinetsHeight := 3;
     totalCabinets := 30 |}.

(** How many times the group id [g] occurs in an assignment array. *)
Definition occurrences (g : Z) (l : list Z) : Z :=
  Z.of_nat (count_occ Z.eq_dec l g).

(** The share of group [g]: the quotient, plus one for the first
    [totalItems mod groupCount] groups. *)
Definition groupSize (totalItems groupCount g : Z) : Z :=
  (totalItems / groupCount
   + (if g <? totalItems mod groupCount then 1 else 0))%Z.

(** The groups below [k] in id order, each repeated by its share. *)
Definition balancedUpTo (totalItems groupCount k : Z) : list Z :=
  g ← seqZ 0 k; replicate (Z.to_nat (groupSize totalItems groupCount g)) g.

(** Items handed out once the groups below [k] are served. *)
Definition assignedBefore (T G k : Z) : Z :=
  (k * (T / G) + Z.min k (T mod G))%Z.

(** One turn of the loop over the groups of [generateAssignments], with
    [baseSize] and [remainder] in integer form. *)
Definition serveGroup (T G : Z) (st : list Z * Z) (i : Z) : list Z * Z :=
  Nat.iter
    (Z.to_nat (if (i <? T mod G)%Z then (T / G + 1)%Z else (T / G)%Z))
    (assignOne T i) st.

(** The sum of a sequence of rationals. *)
Definition sumQ (qs : list Q) : Q := foldr Qplus 0%Q qs.

(** Number of chunks of [CIRCUITS_PER_MCCB] circuits, the last one
    possibly shorter, that cover [n] circuits. *)
Definition chunkCount (n : nat) : nat :=
  ((n + (CIRCUITS_PER_MCCB - 1)) / CIRCUITS_PER_MCCB)%nat.

(** Three indoor circuits of ten cabinets each. *)
Definition threeCircuits : list Circuit.t :=
  [ {| Circuit.id := 0; Circuit.count := 10; Circuit.watts := 2500;
       Circuit.amps := 2500 / 220 |};
    {| Circuit.id := 1; Circuit.count := 10; Circuit.watts := 2500;
       Circuit.amps := 2500 / 220 |};
    {| Circuit.id := 2; Circuit.count := 10; Circuit.watts := 2500;
       Circuit.amps := 2500 / 220 |} ].

End Derived.

(** ** Vocabulary of the further properties *)

Module Further.
Import Js Constants Utils Visualizer.

(** The cell that the loops of [gridData] build for column [x0], row
    [y0]. *)
Definition cellAt (cabinetsHeight : Z)
    (portAssignments circuitAssignments : list Z) (x0 y0 : Z) : Cell :=
  {| x := x0; y := y0;
     snakeIndex := snakeIndexOf cabinetsHeight x0 y0;
     portId := at_index portAssignments (snakeIndexOf cabinetsHeight x0 y0);
     circuitId :=
       at_index circuitAssignments (snakeIndexOf cabinetsHeight x0 y0) |}.

(** What [getNeighborId] is to return for the neighbour at [(nx, ny)]:
    the id shown on that cell, or -2 outside the grid. *)
Definition neighbourOrEdge (viewMode : ViewMode.t) (data : CalculationResult)
    (portAssignments circuitAssignments : list Z) (nx ny : Z) : option Z :=
  if bool_decide ((0 <= nx < cabinetsWidth data)%Z
                  /\ (0 <= ny < cabinetsHeight data)%Z)
  then shownId viewMode
         (cellAt (cabinetsHeight data) portAssignments circuitAssignments
                 nx ny)
  else Some (-2)%Z.

(** Counters for the ids below [n], the one of id [i] at [c i]. *)
Definition counters (c : Z -> Z) (n : Z) : list Counter.t :=
  (fun i => {| Counter.id := i; Counter.count := c i |}) <$> seqZ 0 n.

(** How many entries of a sequence of ids, some possibly [undefined],
    are the id [g]. *)
Definition occurrencesOf (g : Z) (ids : list (option Z)) : Z :=
  Z.of_nat (length (filter (fun o => o = Some g) ids)).

(** The entry of [activePorts] made from a counter, given the quotient
    [pixelsPerCabinet] of [breakdown]. *)
Definition portEntry (pixelsPerCabinet : Q) (p : Counter.t) : Port.t :=
  {| Port.id := Counter.id p;
     Port.count := Counter.count p;
     Port.pixels :=
       Math_round (inject_Z (Counter.count p) * pixelsPerCabinet);
     Port.percentage :=
       (inject_Z (Math_round (inject_Z (Counter.count p) * pixelsPerCabinet))
        / MAX_PIXELS_PER_PORT * 100)%Q |}.

(** The entry of [activeCircuits] made from a counter, given the quotient
    [wattsPerCabinet] of [breakdown]. *)
Definition circuitEntry (wattsPerCabinet : Q) (c : Counter.t) : Circuit.t :=
  {| Circuit.id := Counter.id c;
     Circuit.count := Counter.count c;
     Circuit.watts := (inject_Z (Counter.count c) * wattsPerCabinet)%Q;
     Circuit.amps :=
       (inject_Z (Counter.count c) * wattsPerCabinet / 220)%Q |}.

(** The groups that receive at least one of [T] items, with their
    shares, as counters. *)
Definition activeGroups (T G : Z) : list Counter.t :=
  counters (Derived.groupSize T G) (Z.min G T).

(** The browser window outside fullscreen. *)
Definition windowed : Viewport :=
  {| isFullscreen := false; innerWidth := 1280; innerHeight := 720 |}.

End Further.

Import Js Constants Utils Visualizer Derived.
Import Further.

(** Case analysis on [H : In p PIXEL_PITCHES]: one goal per pitch. *)
Ltac each_pitch H :=
  unfold PIXEL_PITCHES in H; simpl in H;
  destruct H as [<- | [<- | [<- | [<- | [<- | [<- | [<- | []]]]]]]].

(** * The saturating table lookup [table.find(s => s >= target) || fallback] *)

Section SaturatingLookup.
Local Open Scope Q_scope.
Variable target : Q.

Lemma find_first_reaching table :
  StronglySorted Z.le table ->
  match find (fun s => Qle_bool target (inject_Z s)) table with
  | Some s => least_at_least table target s
  | None => none_at_least table target
  end.
Proof.
  induction 1 as [|s table Hs IH Hall]; simpl.
  - intros s Hs. inversion Hs.
  - destruct (Qle_bool target (inject_Z s)) eqn:E.
    + apply Qle_bool_iff in E. repeat split.
      * left.
      * exact E.
      * intros s' Hs' _. apply elem_of_cons in Hs' as [->|Hs']; [lia|].
        rewrite Forall_forall in Hall. apply Hall, Hs'.
    + assert (inject_Z s < target) as Hlt.
      { apply Qnot_le_lt. intros Hle. apply Qle_bool_iff in Hle.
        congruence. }
      destruct (find (fun s => Qle_bool target (inject_Z s)) table) as [s0|].
      * destruct IH as (Hin & Hge & Hmin). repeat split.
        -- right. exact Hin.
        -- exact Hge.
        -- intros s' Hs' Hs'ge.
           apply elem_of_cons in Hs' as [->|Hs']; [lra|].
           apply Hmin; assumption.
      * intros s' Hs'. apply elem_of_cons in Hs' as [->|Hs'];
          [exact Hlt|]. apply IH, Hs'.
Qed.

(** On an ascending table without [0] the lookup returns the least entry
    reaching [target], or [fallback] when no entry does. *)
Lemma saturating_lookup table fallback :
  StronglySorted Z.le table -> Forall (fun s => s <> 0%Z) table ->
  let size :=
    or_else (find (fun s => Qle_bool target (inject_Z s)) table) fallback in
  ((exists s, s ∈ table /\ target <= inject_Z s) ->
   least_at_least table target size) /\
  (none_at_least table target -> size = fallback).
Proof.
  intros Hsorted Hnz size. subst size.
  pose proof (find_first_reaching table Hsorted) as Hfind.
  destruct (find (fun s => Qle_bool target (inject_Z s)) table) as [s0|]; simpl.
  - assert (s0 <> 0%Z) as Hs0.
    { rewrite Forall_forall in Hnz. apply Hnz, Hfind. }
    apply Z.eqb_neq in Hs0. rewrite Hs0. split.
    + intros _. exact Hfind.
    + intros Hnone. destruct Hfind as (Hin & Hge & _).
      specialize (Hnone s0 Hin). lra.
  - split; [|reflexivity].
    intros (s & Hin & Hge). specialize (Hfind s Hin). lra.
Qed.

End SaturatingLookup.

(** * Properties of [calculateRequirements] *)

Section Calculator.
Local Open Scope Q_scope.

Lemma div_Some a b : ~ b == 0 -> div a b = Some (a / b).
Proof.
  intros Hb. unfold div.
  destruct (Qeq_bool b 0) eqn:E; [|reflexivity].
  apply Qeq_bool_iff in E. contradiction.
Qed.

Lemma div_Some_inv a b q : div a b = Some q -> ~ b == 0 /\ q = a / b.
Proof.
  unfold div. destruct (Qeq_bool b 0) eqn:E; [discriminate|].
  intros [= <-]. split; [|reflexivity].
  intros Hb. apply Qeq_bool_iff in Hb. congruence.
Qed.

Lemma inject_Z_neq_0 z : z <> 0%Z -> ~ inject_Z z == 0.
Proof.
  intros Hz Hq. apply Hz. unfold Qeq in Hq. simpl in Hq. lia.
Qed.

(** The model of [calculateRequirements] stops exactly when the pitch
    or the pixel count of one cabinet is zero. *)
Lemma calculateRequirements_defined w h p env :
  ~ p == 0 -> pixelsPerCabinet p <> 0%Z ->
  exists r, calculateRequirements w h p env = Some r.
Proof.
  intros Hp Hc. unfold calculateRequirements.
  rewrite !(div_Some _ p) by assumption.
  cbv beta iota zeta.
  change (Math_round (500 / p) * Math_round (1000 / p))%Z
    with (pixelsPerCabinet p).
  rewrite div_Some by (apply inject_Z_neq_0; assumption).
  eexists; reflexivity.
Qed.

(** What each field of a result holds, in terms of the inputs. *)
Lemma calculateRequirements_fields w h p env r :
  calculateRequirements w h p env = Some r ->
  ~ p == 0 /\ pixelsPerCabinet p <> 0%Z /\
  pitch r = p /\
  cabinetsWidth r = Math_ceil (w / 500) /\
  cabinetsHeight r = Math_ceil (h / 1000) /\
  totalCabinets r = (cabinetsWidth r * cabinetsHeight r)%Z /\
  resolutionWidth r = Math_round (w / p) /\
  resolutionHeight r = Math_round (h / p) /\
  totalPixels r = (resolutionWidth r * resolutionHeight r)%Z /\
  lanPorts r =
    Math_ceil (inject_Z (totalCabinets r)
               / inject_Z (effectiveCabinetsPerPort p)) /\
  peakPowerWatts r =
    (totalCabinets r * peakWattsPerPanel (POWER_SPECS env))%Z /\
  avgPowerWatts r =
    (totalCabinets r * avgWattsPerPanel (POWER_SPECS env))%Z /\
  amps220v r = inject_Z (peakPowerWatts r) / 220 /\
  circuits220v r =
    Math_ceil (inject_Z (totalCabinets r)
               / inject_Z (effectiveCabinetsPerCircuit env)) /\
  mainBreakerSize r =
    or_else
      (find (fun size => Qle_bool (requiredMainAmps r) (inject_Z size))
            STANDARD_BREAKER_SIZES)
      (last_of STANDARD_BREAKER_SIZES) /\
  areaSqM r = (w / 1000) * (h / 1000).
Proof.
  unfold calculateRequirements.
  destruct (div w p) as [wp|] eqn:E1; [|discriminate].
  destruct (div h p) as [hp|] eqn:E2; [|discriminate].
  destruct (div 500 p) as [cw|] eqn:E3; [|discriminate].
  destruct (div 1000 p) as [ch|] eqn:E4; [|discriminate].
  apply div_Some_inv in E1 as [Hp ->].
  apply div_Some_inv in E2 as [_ ->].
  apply div_Some_inv in E3 as [_ ->].
  apply div_Some_inv in E4 as [_ ->].
  cbv beta iota zeta.
  change (Math_round (500 / p) * Math_round (1000 / p))%Z
    with (pixelsPerCabinet p).
  destruct (div SAFE_PIXELS_PER_PORT _) as [sc|] eqn:E5; [|discriminate].
  apply div_Some_inv in E5 as [Hc ->].
  intros [= <-]. cbn [pitch cabinetsWidth cabinetsHeight totalCabinets
    resolutionWidth resolutionHeight totalPixels lanPorts peakPowerWatts
    avgPowerWatts amps220v circuits220v mainBreakerSize areaSqM
    requiredMainAmps].
  repeat split; try reflexivity; try assumption.
  intros H0. apply Hc. rewrite H0. reflexivity.
Qed.

Lemma supported_pitch_pos p : In p PIXEL_PITCHES -> 0 < p.
Proof. intros H. each_pitch H; reflexivity. Qed.

Lemma supported_pitch_pixelsPerCabinet p :
  In p PIXEL_PITCHES -> (1 <= pixelsPerCabinet p)%Z.
Proof. intros H. each_pitch H; vm_compute; discriminate. Qed.

Lemma supported_pitch_defined w h p env :
  In p PIXEL_PITCHES -> exists r, calculateRequirements w h p env = Some r.
Proof.
  intros H. apply calculateRequirements_defined.
  - apply supported_pitch_pos in H. intros E. rewrite E in H.
    discriminate.
  - apply supported_pitch_pixelsPerCabinet in H. lia.
Qed.

(** C3 (scenario A): a 5000 mm by 3000 mm indoor wall at pitch 2.5 needs a
    10 by 3 grid of 30 cabinets, shows 2000 by 1200 pixels (class FHD),
    takes 5 LAN ports on a VX16s controller, draws 7500 W at peak, that is
    7500/220 A (between 34.09 and 34.10), on 3 circuits behind a 50 A main
    breaker, and covers 15 square metres. *)
Theorem scenario_A_requirements :
  exists r,
    calculateRequirements 5000 3000 2.5 indoor = Some r /\
    cabinetsWidth r = 10%Z /\ cabinetsHeight r = 3%Z /\
    totalCabinets r = 30%Z /\
    resolutionWidth r = 2000%Z /\ resolutionHeight r = 1200%Z /\
    resolutionClass r = "FHD"%string /\
    lanPorts r = 5%Z /\ controller r = "VX16s"%string /\
    peakPowerWatts r = 7500%Z /\
    amps220v r == 7500 / 220 /\ 34.09 <= amps220v r < 34.10 /\
    circuits220v r = 3%Z /\ mainBreakerSize r = 50%Z /\
    areaSqM r == 15.
Proof.
  eexists. split; [vm_compute; reflexivity|].
  cbn [cabinetsWidth cabinetsHeight totalCabinets resolutionWidth
       resolutionHeight resolutionClass lanPorts controller peakPowerWatts
       amps220v circuits220v mainBreakerSize areaSqM].
  repeat split; try reflexivity; try discriminate.
Qed.

(** C9: for each of the seven supported pitches the pixel count of one
    cabinet, round(500/pitch) * round(1000/pitch), is at least 1, so the
    division of the safe port budget by it is a division by a non-zero
    number, and [calculateRequirements] returns a result whatever the
    dimensions and the environment. *)
Theorem pixelsPerCabinet_never_zero p :
  In p PIXEL_PITCHES ->
  (1 <= pixelsPerCabinet p)%Z /\
  div SAFE_PIXELS_PER_PORT (inject_Z (pixelsPerCabinet p))
    = Some (SAFE_PIXELS_PER_PORT / inject_Z (pixelsPerCabinet p)) /\
  forall w h env, exists r,
    calculateRequirements w h p env = Some r /\
    lanPorts r =
      Math_ceil (inject_Z (totalCabinets r)
                 / inject_Z (effectiveCabinetsPerPort p)).
Proof.
  intros H. pose proof (supported_pitch_pixelsPerCabinet p H) as Hc.
  split; [exact Hc|]. split.
  - apply div_Some, inject_Z_neq_0. lia.
  - intros w h env.
    destruct (supported_pitch_defined w h p env H) as [r Hr].
    exists r. split; [exact Hr|].
    apply calculateRequirements_fields in Hr. tauto.
Qed.

Lemma pixelsPerCabinet_never_zero_witness :
  (1 <= pixelsPerCabinet 3.91)%Z /\
  div SAFE_PIXELS_PER_PORT (inject_Z (pixelsPerCabinet 3.91))
    = Some (SAFE_PIXELS_PER_PORT / inject_Z (pixelsPerCabinet 3.91)).
Proof.
  pose proof (pixelsPerCabinet_never_zero 3.91) as H.
  split; apply H; simpl; tauto.
Defined.

(** C10: for positive dimensions and a supported pitch, the indoor and
    the outdoor run both return a result, and the two results agree on
    resolution, class, pixel count, cabinet grid, LAN ports, controller
    and area; only the electrical fields can differ. *)
Theorem environment_only_affects_power w h p :
  0 < w -> 0 < h -> In p PIXEL_PITCHES ->
  exists r_in r_out,
    calculateRequirements w h p indoor = Some r_in /\
    calculateRequirements w h p outdoor = Some r_out /\
    resolutionWidth r_in = resolutionWidth r_out /\
    resolutionHeight r_in = resolutionHeight r_out /\
    resolutionClass r_in = resolutionClass r_out /\
    totalPixels r_in = totalPixels r_out /\
    cabinetsWidth r_in = cabinetsWidth r_out /\
    cabinetsHeight r_in = cabinetsHeight r_out /\
    totalCabinets r_in = totalCabinets r_out /\
    lanPorts r_in = lanPorts r_out /\
    controller r_in = controller r_out /\
    areaSqM r_in = areaSqM r_out.
Proof.
  intros _ _ H.
  destruct (supported_pitch_defined w h p indoor H) as [r1 H1].
  destruct (supported_pitch_defined w h p outdoor H) as [r2 H2].
  exists r1, r2. split; [exact H1|]. split; [exact H2|].
  revert H1 H2. unfold calculateRequirements.
  destruct (div w p); [|discriminate].
  destruct (div h p); [|discriminate].
  destruct (div 500 p); [|discriminate].
  destruct (div 1000 p); [|discriminate].
  cbv beta iota zeta.
  destruct (div SAFE_PIXELS_PER_PORT _); [|discriminate].
  intros [= <-] [= <-].
  cbn [resolutionWidth resolutionHeight resolutionClass totalPixels
       cabinetsWidth cabinetsHeight totalCabinets lanPorts controller
       areaSqM].
  repeat (split; [reflexivity|]). reflexivity.
Qed.

Lemma environment_only_affects_power_witness :
  exists r_in r_out,
    calculateRequirements 5000 3000 2.5 indoor = Some r_in /\
    calculateRequirements 5000 3000 2.5 outdoor = Some r_out /\
    lanPorts r_in = lanPorts r_out /\
    controller r_in = controller r_out.
Proof.
  destruct (environment_only_affects_power 5000 3000 2.5)
    as (r1 & r2 & H1 & H2 & H); [reflexivity | reflexivity | | ].
  - simpl; tauto.
  - exists r1, r2. tauto.
Defined.

Lemma Math_round_mono a b : a <= b -> (Math_round a <= Math_round b)%Z.
Proof. intros H. unfold Math_round. apply Qfloor_resp_le. lra. Qed.

Lemma Math_round_nonneg a : 0 <= a -> (0 <= Math_round a)%Z.
Proof.
  intros H. change 0%Z with (Math_round 0). apply Math_round_mono, H.
Qed.

Lemma Qdiv_antimono a p1 p2 : 0 <= a -> 0 < p1 -> p1 <= p2 -> a / p2 <= a / p1.
Proof.
  intros Ha Hp H12.
  assert (0 < p2) by lra.
  apply Qle_shift_div_r; [assumption|].
  assert (0 <= a / p1) by (apply Qle_shift_div_l; lra).
  assert (a == (a / p1) * p1) by (field; lra).
  nra.
Qed.

Lemma Math_ceil_mono a b : a <= b -> (Math_ceil a <= Math_ceil b)%Z.
Proof. apply Qceiling_resp_le. Qed.

Lemma Math_floor_mono a b : a <= b -> (Math_floor a <= Math_floor b)%Z.
Proof. apply Qfloor_resp_le. Qed.

Lemma Math_ceil_nonneg a : 0 <= a -> (0 <= Math_ceil a)%Z.
Proof.
  intros H. change 0%Z with (Math_ceil 0). apply Math_ceil_mono, H.
Qed.

Lemma inject_Z_pos z : (0 < z)%Z -> 0 < inject_Z z.
Proof. intros H. change 0 with (inject_Z 0). rewrite <- Zlt_Qlt. exact H. Qed.

Lemma inject_Z_nonneg z : (0 <= z)%Z -> 0 <= inject_Z z.
Proof. intros H. change 0 with (inject_Z 0). rewrite <- Zle_Qle. exact H. Qed.

Lemma pixelsPerCabinet_antimono p1 p2 :
  0 < p1 -> p1 <= p2 ->
  (0 <= pixelsPerCabinet p2 <= pixelsPerCabinet p1)%Z.
Proof.
  intros Hp H12. unfold pixelsPerCabinet.
  assert (0 < p2) as Hp2 by lra.
  assert (0 <= Math_round (500 / p2) <= Math_round (500 / p1))%Z as Hw.
  { split.
    - apply Math_round_nonneg, Qle_shift_div_l; lra.
    - apply Math_round_mono, Qdiv_antimono; lra. }
  assert (0 <= Math_round (1000 / p2) <= Math_round (1000 / p1))%Z as Hh.
  { split.
    - apply Math_round_nonneg, Qle_shift_div_l; lra.
    - apply Math_round_mono, Qdiv_antimono; lra. }
  nia.
Qed.

Lemma SAFE_PIXELS_PER_PORT_pos : 0 < SAFE_PIXELS_PER_PORT.
Proof. reflexivity. Qed.

Lemma effectiveCabinetsPerPort_mono p1 p2 :
  0 < p1 -> p1 <= p2 -> (1 <= pixelsPerCabinet p2)%Z ->
  (1 <= effectiveCabinetsPerPort p1 <= effectiveCabinetsPerPort p2)%Z.
Proof.
  intros Hp H12 Hc.
  destruct (pixelsPerCabinet_antimono p1 p2 Hp H12) as [_ Hle].
  unfold effectiveCabinetsPerPort. split; [lia|].
  apply Z.max_le_compat_l, Math_floor_mono, Qdiv_antimono.
  - pose proof SAFE_PIXELS_PER_PORT_pos. lra.
  - apply inject_Z_pos. lia.
  - rewrite <- Zle_Qle. exact Hle.
Qed.

Lemma ports_antimono total e1 e2 :
  (0 <= total)%Z -> (1 <= e1 <= e2)%Z ->
  (Math_ceil (inject_Z total / inject_Z e2)
   <= Math_ceil (inject_Z total / inject_Z e1))%Z.
Proof.
  intros Ht [H1 H2]. apply Math_ceil_mono, Qdiv_antimono.
  - apply inject_Z_nonneg, Ht.
  - apply inject_Z_pos. lia.
  - rewrite <- Zle_Qle. exact H2.
Qed.

Lemma totalCabinets_nonneg w h :
  0 < w -> 0 < h -> (0 <= Math_ceil (w / 500) * Math_ceil (h / 1000))%Z.
Proof.
  intros Hw Hh. apply Z.mul_nonneg_nonneg; apply Math_ceil_nonneg;
    apply Qle_shift_div_l; lra.
Qed.

(** C8: for fixed positive dimensions and environment and two supported
    pitches [p1 < p2], both runs return a result, and the run at the finer
    pitch [p1] has at least as many pixels, LAN ports and 220 V circuits as
    the run at [p2]. *)
Theorem finer_pitch_never_needs_less w h env p1 p2 :
  0 < w -> 0 < h -> In p1 PIXEL_PITCHES -> In p2 PIXEL_PITCHES -> p1 < p2 ->
  exists r1 r2,
    calculateRequirements w h p1 env = Some r1 /\
    calculateRequirements w h p2 env = Some r2 /\
    (totalPixels r2 <= totalPixels r1)%Z /\
    (lanPorts r2 <= lanPorts r1)%Z /\
    (circuits220v r2 <= circuits220v r1)%Z.
Proof.
  intros Hw Hh Hin1 Hin2 Hlt.
  destruct (supported_pitch_defined w h p1 env Hin1) as [r1 H1].
  destruct (supported_pitch_defined w h p2 env Hin2) as [r2 H2].
  exists r1, r2. split; [exact H1|]. split; [exact H2|].
  pose proof (supported_pitch_pos p1 Hin1) as Hp1.
  pose proof (supported_pitch_pixelsPerCabinet p2 Hin2) as Hc2.
  apply calculateRequirements_fields in H1
    as (_ & _ & _ & Hcw1 & Hch1 & Ht1 & Hrw1 & Hrh1 & Htp1 & Hl1 & _ & _ & _
        & Hc1 & _).
  apply calculateRequirements_fields in H2
    as (_ & _ & _ & Hcw2 & Hch2 & Ht2 & Hrw2 & Hrh2 & Htp2 & Hl2 & _ & _ & _
        & Hci2 & _).
  assert (0 < p2) as Hp2 by lra.
  assert (totalCabinets r1 = totalCabinets r2) as Ht by congruence.
  assert (0 <= totalCabinets r2)%Z as Htn.
  { rewrite Ht2, Hcw2, Hch2. apply totalCabinets_nonneg; assumption. }
  split; [|split].
  - rewrite Htp1, Htp2, Hrw1, Hrw2, Hrh1, Hrh2.
    apply Z.mul_le_mono_nonneg.
    + apply Math_round_nonneg, Qle_shift_div_l; lra.
    + apply Math_round_mono, Qdiv_antimono; lra.
    + apply Math_round_nonneg, Qle_shift_div_l; lra.
    + apply Math_round_mono, Qdiv_antimono; lra.
  - rewrite Hl1, Hl2, Ht. apply ports_antimono; [exact Htn|].
    apply effectiveCabinetsPerPort_mono; [exact Hp1|lra|exact Hc2].
  - rewrite Hc1, Hci2, Ht. lia.
Qed.


Lemma finer_pitch_never_needs_less_witness :
  exists r1 r2,
    calculateRequirements 5000 3000 1.25 indoor = Some r1 /\
    calculateRequirements 5000 3000 2.5 indoor = Some r2 /\
    (totalPixels r2 <= totalPixels r1)%Z /\
    (lanPorts r2 <= lanPorts r1)%Z /\
    (circuits220v r2 <= circuits220v r1)%Z.
Proof.
  apply (finer_pitch_never_needs_less 5000 3000 indoor 1.25 2.5);
    try reflexivity; simpl; tauto.
Defined.

Lemma STANDARD_BREAKER_SIZES_sorted :
  StronglySorted Z.le STANDARD_BREAKER_SIZES.
Proof. unfold STANDARD_BREAKER_SIZES. repeat constructor; lia. Qed.

Lemma STANDARD_BREAKER_SIZES_nonzero :
  Forall (fun s => s <> 0%Z) STANDARD_BREAKER_SIZES.
Proof. unfold STANDARD_BREAKER_SIZES. repeat constructor; lia. Qed.

(** C6: for positive dimensions and a supported pitch the run returns a
    result whose [mainBreakerSize] is, when some entry of the standard
    table reaches [amps220v * 1.25], the least such entry, and is the table
    maximum 1200 when no entry does; a value is returned in both cases. *)
Theorem mainBreakerSize_least_standard w h p env :
  0 < w -> 0 < h -> In p PIXEL_PITCHES ->
  exists r,
    calculateRequirements w h p env = Some r /\
    ((exists s, s ∈ STANDARD_BREAKER_SIZES /\
                amps220v r * 1.25 <= inject_Z s) ->
     least_at_least STANDARD_BREAKER_SIZES (amps220v r * 1.25)
                    (mainBreakerSize r)) /\
    (none_at_least STANDARD_BREAKER_SIZES (amps220v r * 1.25) ->
     mainBreakerSize r = 1200%Z).
Proof.
  intros _ _ Hin.
  destruct (supported_pitch_defined w h p env Hin) as [r Hr].
  exists r. split; [exact Hr|].
  apply calculateRequirements_fields in Hr.
  destruct Hr
    as (_ & _ & _ & _ & _ & _ & _ & _ & _ & _ & _ & _ & _ & _ & Hm & _).
  rewrite Hm. unfold requiredMainAmps.
  apply (saturating_lookup (amps220v r * 1.25) STANDARD_BREAKER_SIZES
           (last_of STANDARD_BREAKER_SIZES)).
  - apply STANDARD_BREAKER_SIZES_sorted.
  - apply STANDARD_BREAKER_SIZES_nonzero.
Qed.

Lemma mainBreakerSize_least_standard_witness :
  exists r,
    calculateRequirements 5000 3000 2.5 indoor = Some r /\
    least_at_least STANDARD_BREAKER_SIZES (amps220v r * 1.25)
                   (mainBreakerSize r).
Proof.
  destruct (mainBreakerSize_least_standard 5000 3000 2.5 indoor)
    as (r & Hr & Hleast & _); [reflexivity | reflexivity | simpl; tauto |].
  exists r. split; [exact Hr|]. apply Hleast.
  exists 50%Z. split.
  - unfold STANDARD_BREAKER_SIZES. rewrite !elem_of_cons. tauto.
  - vm_compute in Hr. injection Hr as <-. vm_compute. discriminate.
Defined.

(** A wall of 1000 by 20 cabinets exceeds every standard size: the main
    breaker stays at 1200. *)
Example mainBreakerSize_saturates :
  exists r,
    calculateRequirements 500000 20000 2.5 indoor = Some r /\
    none_at_least STANDARD_BREAKER_SIZES (amps220v r * 1.25) /\
    mainBreakerSize r = 1200%Z.
Proof.
  eexists. split; [vm_compute; reflexivity|]. split; [|reflexivity].
  intros s Hs. unfold STANDARD_BREAKER_SIZES in Hs.
  rewrite !elem_of_cons in Hs.
  repeat (destruct Hs as [-> | Hs]; [reflexivity|]). inversion Hs.
Qed.

Lemma Math_ceil_pos a : 0 < a -> (1 <= Math_ceil a)%Z.
Proof.
  intros Ha. pose proof (Qle_ceiling a) as H. unfold Math_ceil.
  assert (0 < inject_Z (Qceiling a)) as Hc by lra.
  change 0 with (inject_Z 0) in Hc. rewrite <- Zlt_Qlt in Hc. lia.
Qed.

(** Every result of [calculateRequirements] on positive dimensions
    describes a grid that [gridData] accepts. *)
Lemma requirements_describe_grid w h p env r :
  0 < w -> 0 < h -> calculateRequirements w h p env = Some r ->
  totalCabinets r = (cabinetsWidth r * cabinetsHeight r)%Z /\
  (1 <= cabinetsWidth r)%Z /\ (1 <= cabinetsHeight r)%Z /\
  (1 <= totalCabinets r)%Z /\ (1 <= lanPorts r)%Z /\
  (1 <= circuits220v r)%Z.
Proof.
  intros Hw Hh Hr. apply calculateRequirements_fields in Hr
    as (_ & _ & _ & Hcw & Hch & Ht & _ & _ & _ & Hl & _ & _ & _ & Hc & _).
  assert (1 <= cabinetsWidth r)%Z as H1
    by (rewrite Hcw; apply Math_ceil_pos, Qlt_shift_div_l; lra).
  assert (1 <= cabinetsHeight r)%Z as H2
    by (rewrite Hch; apply Math_ceil_pos, Qlt_shift_div_l; lra).
  assert (1 <= totalCabinets r)%Z as H3 by (rewrite Ht; nia).
  split; [exact Ht|]. split; [exact H1|]. split; [exact H2|].
  split; [exact H3|].
  assert (forall e, (1 <= e)%Z ->
            (1 <= Math_ceil (inject_Z (totalCabinets r) / inject_Z e))%Z)
    as Hpos.
  { intros e He. apply Math_ceil_pos, Qlt_shift_div_l.
    - change 0 with (inject_Z 0). rewrite <- Zlt_Qlt. lia.
    - rewrite Qmult_0_l. change 0 with (inject_Z 0). rewrite <- Zlt_Qlt. lia. }
  split.
  - rewrite Hl. apply Hpos. unfold effectiveCabinetsPerPort. lia.
  - rewrite Hc. apply Hpos. unfold effectiveCabinetsPerCircuit. lia.
Qed.

End Calculator.

(** * Properties of the [results] memo of [App.tsx] *)

Section Orchestrator.
Import App.
Local Open Scope Q_scope.

Lemma falsy_iff n : falsy n = true <-> n == 0.
Proof. apply Qeq_bool_iff. Qed.

(** C5 as stated fails: a negative width is not rejected.  For
    width = -5000 and height = 3000 the memo holds a result for every
    supported pitch, the one at pitch 2.5 with a grid of -10 by 3
    cabinets. *)
Lemma negative_width_not_rejected :
  ~ (forall width height env,
       Number width <= 0 \/ Number height <= 0 ->
       results width height env = []).
Proof.
  intros H. specialize (H (Num (-5000)) (Num 3000) indoor).
  assert (Number (Num (-5000)) <= 0 \/ Number (Num 3000) <= 0) as Hneg
    by (left; discriminate).
  apply H in Hneg. vm_compute in Hneg. discriminate.
Qed.

Example negative_width_result :
  exists r,
    results (Num (-5000)) (Num 3000) indoor !! 3%nat = Some (Some r) /\
    cabinetsWidth r = (-10)%Z /\ totalCabinets r = (-30)%Z /\
    lanPorts r = (-5)%Z.
Proof. eexists. split; [vm_compute; reflexivity|]. repeat split. Qed.

(** [calculateRequirements] itself checks nothing: called with width 0
    it returns a result for a wall of no cabinets. *)
Example calculateRequirements_accepts_zero_width :
  exists r,
    calculateRequirements 0 3000 2.5 indoor = Some r /\
    totalCabinets r = 0%Z /\ lanPorts r = 0%Z /\
    mainBreakerSize r = 20%Z.
Proof. eexists. split; [vm_compute; reflexivity|]. repeat split. Qed.

(** C5, amended: for width = 0 or height = 0 (an empty field counts as
    0) the memo returns the empty list before anything is computed, so
    that no CalculationResult is produced; no CalculationResult is ever
    produced for an unsupported pitch, every result of the memo carrying
    a pitch of [PIXEL_PITCHES]; and the environment is indoor or outdoor
    by its type.  Negative dimensions are left out. *)
Theorem results_reject_zero_dimension width height env :
  (Number width == 0 \/ Number height == 0 ->
   results width height env = []) /\
  (forall r, Some r ∈ results width height env ->
             In (pitch r) PIXEL_PITCHES) /\
  (env = indoor \/ env = outdoor).
Proof.
  split; [|split].
  - intros [H|H]; apply falsy_iff in H; unfold results; rewrite H.
    + reflexivity.
    + destruct (falsy (Number width)); reflexivity.
  - intros r Hr. unfold results in Hr.
    destruct (falsy (Number width) || falsy (Number height)).
    + apply elem_of_nil in Hr. contradiction.
    + apply list_elem_of_In, List.in_map_iff in Hr as (p & Hp & Hin).
      apply calculateRequirements_fields in Hp as (_ & _ & <- & _).
      exact Hin.
  - destruct env; [left|right]; reflexivity.
Qed.

Lemma results_reject_zero_dimension_witness :
  results (Num 0) (Num 3000) indoor = [] /\
  results (Num 5000) Empty outdoor = [] /\
  exists r,
    results (Num 5000) (Num 3000) indoor !! 3%nat = Some (Some r) /\
    In (pitch r) PIXEL_PITCHES.
Proof.
  split; [|split].
  - apply (results_reject_zero_dimension (Num 0) (Num 3000) indoor).
    left. reflexivity.
  - apply (results_reject_zero_dimension (Num 5000) Empty outdoor).
    right. reflexivity.
  - eexists. split; [vm_compute; reflexivity|].
    apply (results_reject_zero_dimension (Num 5000) (Num 3000) indoor).
    apply list_elem_of_lookup. exists 3%nat. vm_compute. reflexivity.
Defined.

End Orchestrator.

(** * Properties of [generateAssignments] *)

Section Distribution.
Local Open Scope Z_scope.

Lemma assignOne_iter T i n : forall pre rest,
  Z.of_nat (length pre + length rest) = T -> (n <= length rest)%nat ->
  Nat.iter n (assignOne T i) (pre ++ rest, Z.of_nat (length pre))
  = (pre ++ replicate n i ++ drop n rest, Z.of_nat (length pre + n)).
Proof.
  induction n as [|n IH]; intros pre rest HT Hn.
  - simpl. rewrite drop_0, Nat.add_0_r. reflexivity.
  - simpl. rewrite IH by lia. unfold assignOne.
    destruct (Z.ltb_spec (Z.of_nat (length pre + n)) T) as [_|Hge]; [|lia].
    rewrite Nat2Z.id. f_equal; [|lia].
    rewrite insert_app_r_alt by lia.
    rewrite insert_app_r_alt by (rewrite length_replicate; lia).
    rewrite length_replicate.
    replace (length pre + n - length pre - n)%nat with 0%nat by lia.
    destruct (lookup_lt_is_Some_2 rest n) as [z Hz]; [lia|].
    rewrite (drop_S rest z n Hz). cbn [insert list_insert].
    change (i :: replicate n i ++ drop (S n) rest)
      with (replicate (S n) i ++ drop (S n) rest).
    rewrite replicate_S_end, <- app_assoc. reflexivity.
Qed.

Lemma groupSize_nonneg T G g : 0 <= T -> 1 <= G -> 0 <= groupSize T G g.
Proof.
  intros HT HG. unfold groupSize.
  assert (0 <= T / G) by (apply Z.div_pos; lia).
  destruct (g <? T mod G); lia.
Qed.

Lemma assignedBefore_succ T G k :
  assignedBefore T G (k + 1) = assignedBefore T G k + groupSize T G k.
Proof.
  unfold assignedBefore, groupSize.
  destruct (Z.ltb_spec k (T mod G)); lia.
Qed.

Lemma assignedBefore_all T G : 0 <= T -> 1 <= G -> assignedBefore T G G = T.
Proof.
  intros HT HG. unfold assignedBefore.
  pose proof (Z.mod_pos_bound T G ltac:(lia)).
  pose proof (Z.div_mod T G ltac:(lia)). lia.
Qed.

Lemma assignedBefore_mono T G k :
  0 <= T -> 1 <= G -> 0 <= k <= G ->
  0 <= assignedBefore T G k <= T.
Proof.
  intros HT HG Hk.
  pose proof (assignedBefore_all T G HT HG) as Hall.
  unfold assignedBefore in *.
  assert (0 <= T / G) by (apply Z.div_pos; lia).
  pose proof (Z.mod_pos_bound T G ltac:(lia)).
  assert (k * (T / G) <= G * (T / G))
    by (apply Z.mul_le_mono_nonneg_r; lia).
  assert (0 <= k * (T / G)) by (apply Z.mul_nonneg_nonneg; lia).
  lia.
Qed.

Lemma balancedUpTo_succ T G (k : nat) :
  balancedUpTo T G (Z.of_nat (S k))
  = balancedUpTo T G (Z.of_nat k)
    ++ replicate (Z.to_nat (groupSize T G (Z.of_nat k))) (Z.of_nat k).
Proof.
  unfold balancedUpTo. rewrite seqZ_S, bind_app. cbn. rewrite app_nil_r.
  reflexivity.
Qed.

Lemma length_balancedUpTo T G (k : nat) :
  0 <= T -> 1 <= G ->
  Z.of_nat (length (balancedUpTo T G (Z.of_nat k)))
  = assignedBefore T G (Z.of_nat k).
Proof.
  intros HT HG. induction k as [|k IH].
  - unfold assignedBefore. simpl.
    pose proof (Z.mod_pos_bound T G ltac:(lia)). lia.
  - rewrite balancedUpTo_succ, length_app, length_replicate.
    rewrite Nat2Z.inj_add, IH, Z2Nat.id by (apply groupSize_nonneg; lia).
    rewrite Nat2Z.inj_succ, <- Z.add_1_r, assignedBefore_succ. reflexivity.
Qed.

Lemma serveGroup_prefix T G (k : nat) :
  0 <= T -> 1 <= G -> Z.of_nat k <= G ->
  fold_left (serveGroup T G) (seqZ 0 (Z.of_nat k))
            (replicate (Z.to_nat T) 0, 0)
  = (balancedUpTo T G (Z.of_nat k)
       ++ replicate (Z.to_nat (T - assignedBefore T G (Z.of_nat k))) 0,
     assignedBefore T G (Z.of_nat k)).
Proof.
  intros HT HG. induction k as [|k IH]; intros Hk.
  - assert (assignedBefore T G 0 = 0) as H0.
    { unfold assignedBefore.
      pose proof (Z.mod_pos_bound T G ltac:(lia)). lia. }
    change (Z.of_nat 0) with 0. rewrite H0, Z.sub_0_r. reflexivity.
  - rewrite seqZ_S, fold_left_app, IH by lia. cbn [fold_left].
    rewrite Z.add_0_l. unfold serveGroup.
    pose proof (length_balancedUpTo T G k HT HG) as Hlen.
    pose proof (groupSize_nonneg T G (Z.of_nat k) HT HG) as Hsize.
    pose proof (assignedBefore_succ T G (Z.of_nat k)) as Hsucc.
    pose proof (assignedBefore_mono T G (Z.of_nat k + 1) HT HG ltac:(lia))
      as Hnext.
    replace (if Z.of_nat k <? T mod G then T / G + 1 else T / G)
      with (groupSize T G (Z.of_nat k))
      by (unfold groupSize; destruct (Z.of_nat k <? T mod G); lia).
    rewrite <- Hlen at 2.
    rewrite assignOne_iter.
    + rewrite drop_replicate, balancedUpTo_succ, <- app_assoc.
      rewrite Nat2Z.inj_succ, <- Z.add_1_r, Hsucc.
      f_equal; [|lia]. do 2 f_equal. f_equal. lia.
    + rewrite length_replicate. lia.
    + rewrite length_replicate. lia.
Qed.

Lemma generateAssignments_balanced T G :
  0 <= T -> 1 <= G ->
  generateAssignments T G = Some (balancedUpTo T G G).
Proof.
  intros HT HG. unfold generateAssignments.
  destruct (Z.ltb_spec T 0) as [|_]; [lia|].
  unfold Math_floor. rewrite <- Zdiv_Qdiv.
  rewrite Z.rem_mod_nonneg by lia.
  change (fun (st : list Z * Z) (i : Z) =>
            Nat.iter (Z.to_nat (if i <? T mod G then T / G + 1 else T / G))
                     (assignOne T i) st)
    with (serveGroup T G).
  pose proof (serveGroup_prefix T G (Z.to_nat G) HT HG) as H.
  rewrite Z2Nat.id in H by lia. rewrite H by lia.
  rewrite assignedBefore_all by lia.
  rewrite Z.sub_diag. cbn [Z.to_nat replicate]. rewrite app_nil_r.
  reflexivity.
Qed.

Lemma count_occ_replicate (n : nat) (v g : Z) :
  count_occ Z.eq_dec (replicate n v) g = if decide (v = g) then n else 0%nat.
Proof.
  induction n as [|n IH]; cbn [replicate count_occ].
  - destruct (decide (v = g)); reflexivity.
  - rewrite IH. destruct (Z.eq_dec v g), (decide (v = g)); congruence.
Qed.

Lemma count_occ_bind_replicate (size : Z -> nat) (ids : list Z) (g : Z) :
  NoDup ids ->
  count_occ Z.eq_dec (i ← ids; replicate (size i) i) g
  = if decide (g ∈ ids) then size g else 0%nat.
Proof.
  induction 1 as [|i ids Hi Hnd IH].
  - cbn. destruct (decide (g ∈ [])) as [Hin|]; [inversion Hin|reflexivity].
  - rewrite bind_cons, count_occ_app, IH, count_occ_replicate.
    destruct (decide (i = g)) as [->|Hne].
    + destruct (decide (g ∈ ids)); [contradiction|].
      destruct (decide (g ∈ g :: ids)) as [|Hn]; [lia|].
      exfalso. apply Hn. left.
    + destruct (decide (g ∈ ids)) as [Hin|Hnin].
      * destruct (decide (g ∈ i :: ids)) as [|Hn]; [lia|].
        exfalso. apply Hn. right. exact Hin.
      * destruct (decide (g ∈ i :: ids)) as [Hin|]; [|lia].
        apply elem_of_cons in Hin as [->|Hin]; contradiction.
Qed.

Lemma occurrences_balanced T G g :
  0 <= T -> 1 <= G -> 0 <= g < G ->
  occurrences g (balancedUpTo T G G) = groupSize T G g.
Proof.
  intros HT HG Hg. unfold occurrences, balancedUpTo.
  rewrite (count_occ_bind_replicate
             (fun i => Z.to_nat (groupSize T G i))) by apply NoDup_seqZ.
  destruct (decide (g ∈ seqZ 0 G)) as [_|Hn].
  - apply Z2Nat.id, groupSize_nonneg; assumption.
  - exfalso. apply Hn, elem_of_seqZ. lia.
Qed.

Lemma elem_of_balanced T G v :
  v ∈ balancedUpTo T G G -> 0 <= v < G.
Proof.
  unfold balancedUpTo. intros Hv.
  apply list_elem_of_bind in Hv as (g & Hv & Hg).
  apply elem_of_replicate in Hv as [-> _].
  apply elem_of_seqZ in Hg. lia.
Qed.

Lemma sum_snoc (l : list Z) (a : Z) :
  foldr Z.add 0 (l ++ [a]) = foldr Z.add 0 l + a.
Proof. induction l as [|b l IH]; cbn [app foldr]; lia. Qed.

Lemma sum_groupSize T G (k : nat) :
  foldr Z.add 0 (groupSize T G <$> seqZ 0 (Z.of_nat k))
  = assignedBefore T G (Z.of_nat k) - Z.min 0 (T mod G).
Proof.
  induction k as [|k IH].
  - change (Z.of_nat 0) with 0. rewrite seqZ_nil by lia.
    cbn [fmap list_fmap foldr]. unfold assignedBefore. lia.
  - rewrite seqZ_S, fmap_app. cbn [fmap list_fmap].
    rewrite sum_snoc, IH, Z.add_0_l.
    rewrite Nat2Z.inj_succ, <- Z.add_1_r, assignedBefore_succ. lia.
Qed.

(** C1: for [totalItems >= 0] and [groupCount >= 1], [generateAssignments]
    returns an array of [totalItems] group ids, all in [0, groupCount);
    each group id occurs floor(totalItems/groupCount) times or once more,
    the latter exactly for the ids below [totalItems mod groupCount]; the
    occurrence counts of all groups add up to [totalItems].  For 11 items
    and 4 groups the counts in id order are 3, 3, 3, 2. *)
Theorem generateAssignments_balanced_distribution :
  (forall totalItems groupCount,
     0 <= totalItems -> 1 <= groupCount ->
     exists l,
       generateAssignments totalItems groupCount = Some l /\
       Z.of_nat (length l) = totalItems /\
       (forall v, v ∈ l -> 0 <= v < groupCount) /\
       (forall g, 0 <= g < groupCount ->
          (occurrences g l = totalItems / groupCount \/
           occurrences g l = totalItems / groupCount + 1) /\
          (occurrences g l = totalItems / groupCount + 1
           <-> g < totalItems mod groupCount)) /\
       foldr Z.add 0 ((fun g => occurrences g l) <$> seqZ 0 groupCount)
       = totalItems) /\
  (exists l,
     generateAssignments 11 4 = Some l /\
     (fun g => occurrences g l) <$> seqZ 0 4 = [3; 3; 3; 2]).
Proof.
  split; [|eexists; split; vm_compute; reflexivity].
  intros T G HT HG. exists (balancedUpTo T G G).
  split; [apply generateAssignments_balanced; assumption|].
  split.
  { pose proof (length_balancedUpTo T G (Z.to_nat G) HT HG) as H.
    rewrite Z2Nat.id in H by lia. rewrite H.
    apply assignedBefore_all; assumption. }
  split; [intros v; apply elem_of_balanced|].
  split.
  - intros g Hg. rewrite occurrences_balanced by assumption.
    unfold groupSize. destruct (Z.ltb_spec g (T mod G)); lia.
  - rewrite (list_fmap_ext _ (groupSize T G) (seqZ 0 G)).
    + pose proof (sum_groupSize T G (Z.to_nat G)) as H.
      rewrite Z2Nat.id in H by lia. rewrite H.
      rewrite assignedBefore_all by assumption.
      pose proof (Z.mod_pos_bound T G ltac:(lia)). lia.
    + intros i g Hg. apply lookup_seqZ in Hg as [-> Hi].
      apply occurrences_balanced; lia.
Qed.

Lemma generateAssignments_balanced_distribution_witness :
  exists l,
    generateAssignments 11 4 = Some l /\
    Z.of_nat (length l) = 11 /\
    (forall v, v ∈ l -> 0 <= v < 4) /\
    (forall g, 0 <= g < 4 ->
       (occurrences g l = 11 / 4 \/ occurrences g l = 11 / 4 + 1) /\
       (occurrences g l = 11 / 4 + 1 <-> g < 11 mod 4)) /\
    foldr Z.add 0 ((fun g => occurrences g l) <$> seqZ 0 4) = 11.
Proof.
  destruct generateAssignments_balanced_distribution as [H _].
  apply (H 11 4); lia.
Defined.

End Distribution.

(** * The snake index of [gridData] *)

Section Snake.
Local Open Scope Z_scope.

Lemma snakeIndexOf_offset H x y :
  0 <= y < H ->
  exists r, 0 <= r < H /\ snakeIndexOf H x y = x * H + r.
Proof.
  intros Hy. unfold snakeIndexOf. destruct (Z.rem x 2 =? 0).
  - exists y. split; [lia|reflexivity].
  - exists (H - 1 - y). split; [lia|reflexivity].
Qed.

Lemma snakeIndexOf_range W H x y :
  0 <= x < W -> 0 <= y < H -> 0 <= snakeIndexOf H x y < W * H.
Proof.
  intros Hx Hy. destruct (snakeIndexOf_offset H x y Hy) as (r & Hr & ->).
  nia.
Qed.

Lemma snakeIndexOf_inj H x y x' y' :
  0 <= y < H -> 0 <= y' < H ->
  snakeIndexOf H x y = snakeIndexOf H x' y' -> x = x' /\ y = y'.
Proof.
  intros Hy Hy' E.
  assert (x = x') as <-.
  { destruct (snakeIndexOf_offset H x y Hy) as (r & Hr & E1).
    destruct (snakeIndexOf_offset H x' y' Hy') as (r' & Hr' & E2).
    rewrite E1, E2 in E. nia. }
  split; [reflexivity|].
  unfold snakeIndexOf in E. destruct (Z.rem x 2 =? 0); lia.
Qed.

Lemma snakeIndexOf_surj W H k :
  1 <= H -> 0 <= k < W * H ->
  exists x y, 0 <= x < W /\ 0 <= y < H /\ snakeIndexOf H x y = k.
Proof.
  intros HH Hk.
  pose proof (Z.div_mod k H ltac:(lia)) as Hdm.
  pose proof (Z.mod_pos_bound k H ltac:(lia)) as Hm.
  assert (0 <= k / H < W) as Hx.
  { split; [apply Z.div_pos; lia|]. apply Z.div_lt_upper_bound; lia. }
  exists (k / H).
  unfold snakeIndexOf. destruct (Z.rem (k / H) 2 =? 0).
  - exists (k mod H). split; [exact Hx|]. split; lia.
  - exists (H - 1 - k mod H). split; [exact Hx|]. split; lia.
Qed.

Lemma elem_of_gridCells W H pa ca c :
  c ∈ gridCells W H pa ca <->
  exists x0 y0,
    0 <= x0 < W /\ 0 <= y0 < H /\
    c = {| x := x0; y := y0; snakeIndex := snakeIndexOf H x0 y0;
           portId := at_index pa (snakeIndexOf H x0 y0);
           circuitId := at_index ca (snakeIndexOf H x0 y0) |}.
Proof.
  unfold gridCells. rewrite list_elem_of_bind. split.
  - intros (y0 & Hc & Hy). apply list_elem_of_bind in Hc as (x0 & Hc & Hx).
    apply list_elem_of_singleton in Hc. apply elem_of_seqZ in Hx, Hy.
    exists x0, y0. split; [lia|]. split; [lia|exact Hc].
  - intros (x0 & y0 & Hx & Hy & ->). exists y0. split.
    + apply list_elem_of_bind. exists x0. split.
      * apply list_elem_of_singleton. reflexivity.
      * apply elem_of_seqZ. lia.
    + apply elem_of_seqZ. lia.
Qed.

Lemma fmap_bind_list {A B C} (f : B -> C) (g : A -> list B) (l : list A) :
  f <$> (l ≫= g) = l ≫= (fun a => f <$> g a).
Proof.
  induction l as [|a l IH]; [reflexivity|].
  rewrite !bind_cons, fmap_app, IH. reflexivity.
Qed.

Lemma snakeIndex_gridCells W H pa ca :
  snakeIndex <$> gridCells W H pa ca
  = y0 ← seqZ 0 H; x0 ← seqZ 0 W; [snakeIndexOf H x0 y0].
Proof.
  unfold gridCells. rewrite fmap_bind_list.
  apply list_bind_ext; [|reflexivity]. intros y0.
  rewrite fmap_bind_list. reflexivity.
Qed.

Lemma NoDup_snakeIndex_gridCells W H pa ca :
  NoDup (snakeIndex <$> gridCells W H pa ca).
Proof.
  rewrite snakeIndex_gridCells.
  apply NoDup_bind; [| |apply NoDup_seqZ].
  - intros y1 y2 k Hy1 Hy2 Hk1 Hk2.
    apply list_elem_of_bind in Hk1 as (x1 & Hk1 & _).
    apply list_elem_of_bind in Hk2 as (x2 & Hk2 & _).
    apply list_elem_of_singleton in Hk1, Hk2.
    apply elem_of_seqZ in Hy1, Hy2.
    apply (snakeIndexOf_inj H x1 y1 x2 y2); [lia|lia|congruence].
  - intros y0 Hy0. apply elem_of_seqZ in Hy0.
    apply NoDup_bind; [| |apply NoDup_seqZ].
    + intros x1 x2 k _ _ Hk1 Hk2.
      apply list_elem_of_singleton in Hk1, Hk2.
      apply (snakeIndexOf_inj H x1 y0 x2 y0); [lia|lia|congruence].
    + intros x0 _. apply NoDup_singleton.
Qed.

(** C2: for a grid of [cabinetsWidth >= 1] columns and
    [cabinetsHeight >= 1] rows, the snake index sends the cells into
    [0, cabinetsWidth * cabinetsHeight), sends different cells to different
    indices, and reaches every index of that range; the snake indices of
    the cells built by [gridData] are a rearrangement of
    0, ..., cabinetsWidth * cabinetsHeight - 1. *)
Theorem snakeIndex_bijection cabinetsWidth cabinetsHeight :
  1 <= cabinetsWidth -> 1 <= cabinetsHeight ->
  (forall x y, 0 <= x < cabinetsWidth -> 0 <= y < cabinetsHeight ->
     0 <= snakeIndexOf cabinetsHeight x y < cabinetsWidth * cabinetsHeight) /\
  (forall x y x' y',
     0 <= x < cabinetsWidth -> 0 <= y < cabinetsHeight ->
     0 <= x' < cabinetsWidth -> 0 <= y' < cabinetsHeight ->
     snakeIndexOf cabinetsHeight x y = snakeIndexOf cabinetsHeight x' y' ->
     x = x' /\ y = y') /\
  (forall k, 0 <= k < cabinetsWidth * cabinetsHeight ->
     exists x y, 0 <= x < cabinetsWidth /\ 0 <= y < cabinetsHeight /\
                 snakeIndexOf cabinetsHeight x y = k) /\
  (forall portAssignments circuitAssignments,
     snakeIndex <$> gridCells cabinetsWidth cabinetsHeight
                              portAssignments circuitAssignments
     ≡ₚ seqZ 0 (cabinetsWidth * cabinetsHeight)).
Proof.
  intros HW HH. split; [|split; [|split]].
  - intros x0 y0. apply snakeIndexOf_range.
  - intros x0 y0 x' y' _ Hy _ Hy'. apply snakeIndexOf_inj; assumption.
  - intros k. apply snakeIndexOf_surj. exact HH.
  - intros pa ca. apply NoDup_Permutation.
    + apply NoDup_snakeIndex_gridCells.
    + apply NoDup_seqZ.
    + intros k. rewrite elem_of_seqZ, list_elem_of_fmap. split.
      * intros (c & -> & Hc).
        apply elem_of_gridCells in Hc as (x0 & y0 & Hx & Hy & ->).
        cbn [snakeIndex].
        pose proof (snakeIndexOf_range _ _ x0 y0 Hx Hy). lia.
      * intros Hk.
        destruct (snakeIndexOf_surj cabinetsWidth cabinetsHeight k HH
                    ltac:(lia)) as (x0 & y0 & Hx & Hy & <-).
        eexists. split; [|apply elem_of_gridCells; exists x0, y0; eauto].
        reflexivity.
Qed.

Lemma snakeIndex_bijection_witness :
  snakeIndex <$> gridCells 3 2 [] [] ≡ₚ seqZ 0 (3 * 2).
Proof.
  destruct (snakeIndex_bijection 3 2) as (_ & _ & _ & H); [lia | lia |].
  apply H.
Defined.

End Snake.

(** * The cells of [gridData] and their groups *)

Section Grid.
Local Open Scope Z_scope.

Lemma at_index_Some {A} (arr : list A) i :
  0 <= i < Z.of_nat (length arr) ->
  exists v, at_index arr i = Some v /\ arr !! Z.to_nat i = Some v /\ v ∈ arr.
Proof.
  intros Hi. unfold at_index.
  destruct (Z.ltb_spec i 0) as [|_]; [lia|].
  destruct (lookup_lt_is_Some_2 arr (Z.to_nat i)) as [v Hv]; [lia|].
  exists v. split; [exact Hv|]. split; [exact Hv|].
  apply list_elem_of_lookup. exists (Z.to_nat i). exact Hv.
Qed.

Lemma generateAssignments_shape T G :
  0 <= T -> 1 <= G ->
  exists l, generateAssignments T G = Some l /\
            Z.of_nat (length l) = T /\ forall v, v ∈ l -> 0 <= v < G.
Proof.
  intros HT HG. exists (balancedUpTo T G G).
  split; [apply generateAssignments_balanced; assumption|].
  split; [|intros v; apply elem_of_balanced].
  pose proof (length_balancedUpTo T G (Z.to_nat G) HT HG) as H.
  rewrite Z2Nat.id in H by lia. rewrite H.
  apply assignedBefore_all; assumption.
Qed.

(** C4: for a result record whose [totalCabinets] is the product of its
    grid dimensions and is at least 1, with at least one LAN port and one
    circuit, both assignment arrays exist and have [totalCabinets]
    entries, [gridData] returns its cells, and every cell has a snake
    index inside both arrays, a port id in [0, lanPorts) and a circuit id
    in [0, circuits220v), each read at the snake index. *)
Theorem gridData_cells_in_range data :
  totalCabinets data = cabinetsWidth data * cabinetsHeight data ->
  1 <= totalCabinets data -> 1 <= lanPorts data -> 1 <= circuits220v data ->
  exists portAssignments circuitAssignments cells,
    generateAssignments (totalCabinets data) (lanPorts data)
      = Some portAssignments /\
    generateAssignments (totalCabinets data) (circuits220v data)
      = Some circuitAssignments /\
    Z.of_nat (length portAssignments) = totalCabinets data /\
    Z.of_nat (length circuitAssignments) = totalCabinets data /\
    gridData data = Some cells /\
    forall c, c ∈ cells ->
      0 <= snakeIndex c < totalCabinets data /\
      exists p q,
        portId c = Some p /\ circuitId c = Some q /\
        portAssignments !! Z.to_nat (snakeIndex c) = Some p /\
        circuitAssignments !! Z.to_nat (snakeIndex c) = Some q /\
        0 <= p < lanPorts data /\ 0 <= q < circuits220v data.
Proof.
  intros Hgrid Htotal Hports Hcircuits.
  destruct (generateAssignments_shape (totalCabinets data) (lanPorts data))
    as (pa & Hpa & Hlpa & Hrpa); [lia|lia|].
  destruct (generateAssignments_shape (totalCabinets data)
              (circuits220v data)) as (ca & Hca & Hlca & Hrca); [lia|lia|].
  exists pa, ca. eexists. split; [exact Hpa|]. split; [exact Hca|].
  split; [exact Hlpa|]. split; [exact Hlca|].
  unfold gridData. rewrite Hpa, Hca. split; [reflexivity|].
  intros c Hc. apply elem_of_gridCells in Hc as (x0 & y0 & Hx & Hy & ->).
  cbn [snakeIndex portId circuitId].
  pose proof (snakeIndexOf_range _ _ x0 y0 Hx Hy) as Hs.
  rewrite <- Hgrid in Hs. split; [exact Hs|].
  destruct (at_index_Some pa (snakeIndexOf (cabinetsHeight data) x0 y0))
    as (p & Hp & Hp' & Hpin); [lia|].
  destruct (at_index_Some ca (snakeIndexOf (cabinetsHeight data) x0 y0))
    as (q & Hq & Hq' & Hqin); [lia|].
  exists p, q. repeat split; try assumption;
    try (apply Hrpa in Hpin; lia); apply Hrca in Hqin; lia.
Qed.

Lemma gridData_cells_in_range_witness :
  exists cells,
    gridData scenarioA = Some cells /\
    forall c, c ∈ cells ->
      0 <= snakeIndex c < 30 /\
      exists p q, portId c = Some p /\ circuitId c = Some q /\
                  0 <= p < 5 /\ 0 <= q < 3.
Proof.
  destruct (gridData_cells_in_range scenarioA)
    as (pa & ca & cells & _ & _ & _ & _ & Hcells & Hall);
    [reflexivity | cbn; lia | cbn; lia | cbn; lia |].
  exists cells. split; [exact Hcells|].
  intros c Hc.
  destruct (Hall c Hc) as (Hs & p & q & Hp & Hq & _ & _ & Hpr & Hqr).
  split; [exact Hs|]. exists p, q. auto.
Defined.

End Grid.

(** * Grouping the circuits into MCCBs *)

Section MccbGrouping.

Lemma chunkCount_le len n :
  (len <= CIRCUITS_PER_MCCB * n -> chunkCount len <= n)%nat.
Proof.
  unfold chunkCount, CIRCUITS_PER_MCCB. intros H.
  apply Nat.lt_succ_r, Nat.Div0.div_lt_upper_bound. lia.
Qed.

Lemma chunkCount_gt len n :
  (CIRCUITS_PER_MCCB * n < len -> S n <= chunkCount len)%nat.
Proof.
  unfold chunkCount, CIRCUITS_PER_MCCB. intros H.
  apply Nat.div_le_lower_bound; lia.
Qed.

Lemma mccbLoop_chunks l : forall fuel n acc,
  (length l <= CIRCUITS_PER_MCCB * n + fuel)%nat ->
  mccbLoop fuel l (CIRCUITS_PER_MCCB * n) acc
  = acc ++ ((fun k => mccbAt l (CIRCUITS_PER_MCCB * k))
              <$> seq n (chunkCount (length l) - n)).
Proof.
  induction fuel as [|fuel IH]; intros n acc Hfuel; cbn [mccbLoop].
  - pose proof (chunkCount_le (length l) n ltac:(lia)) as Hle.
    replace (chunkCount (length l) - n)%nat with 0%nat by lia.
    cbn. rewrite app_nil_r. reflexivity.
  - destruct (Nat.ltb_spec (CIRCUITS_PER_MCCB * n) (length l)) as [Hlt|Hge].
    + pose proof (chunkCount_gt (length l) n Hlt) as Hn.
      replace (CIRCUITS_PER_MCCB * n + CIRCUITS_PER_MCCB)%nat
        with (CIRCUITS_PER_MCCB * S n)%nat by lia.
      rewrite IH by (unfold CIRCUITS_PER_MCCB in *; lia).
      rewrite <- app_assoc. f_equal.
      replace (chunkCount (length l) - n)%nat
        with (S (chunkCount (length l) - S n))%nat by lia.
      reflexivity.
    + pose proof (chunkCount_le (length l) n Hge) as Hle.
      replace (chunkCount (length l) - n)%nat with 0%nat by lia.
      cbn. rewrite app_nil_r. reflexivity.
Qed.

Lemma mccbGroups_chunks_eq l :
  mccbGroups l
  = (fun k => mccbAt l (CIRCUITS_PER_MCCB * k))
      <$> seq 0 (chunkCount (length l)).
Proof.
  unfold mccbGroups.
  change 0%nat with (CIRCUITS_PER_MCCB * 0)%nat at 1.
  rewrite mccbLoop_chunks by lia. rewrite Nat.sub_0_r. reflexivity.
Qed.

Lemma concat_chunks {A} (l : list A) (n : nat) :
  concat ((fun k => take CIRCUITS_PER_MCCB (drop (CIRCUITS_PER_MCCB * k) l))
            <$> seq 0 n)
  = take (CIRCUITS_PER_MCCB * n) l.
Proof.
  induction n as [|n IH].
  - rewrite Nat.mul_0_r, take_0. reflexivity.
  - rewrite seq_S, fmap_app, concat_app, IH. cbn [fmap list_fmap concat].
    rewrite app_nil_r, take_take_drop. f_equal. lia.
Qed.

Lemma slice_chunk {A} (l : list A) (i : nat) :
  slice l i (i + CIRCUITS_PER_MCCB) = take CIRCUITS_PER_MCCB (drop i l).
Proof. unfold slice. f_equal. lia. Qed.

Lemma totalAmps_sum (cs : list Circuit.t) : forall a : Q,
  (fold_left (fun sum c => sum + Circuit.amps c) cs a
   == a + sumQ (Circuit.amps <$> cs))%Q.
Proof.
  induction cs as [|c cs IH]; intros a; cbn [fold_left fmap list_fmap].
  - unfold sumQ. cbn [foldr]. ring.
  - rewrite IH. unfold sumQ. cbn [foldr]. ring.
Qed.

Lemma mccb_id_of_chunk (k : nat) :
  (Math_floor (inject_Z (Z.of_nat (CIRCUITS_PER_MCCB * k))
               / inject_Z (Z.of_nat CIRCUITS_PER_MCCB)) + 1
   = Z.of_nat k + 1)%Z.
Proof.
  unfold Math_floor. rewrite <- Zdiv_Qdiv. f_equal.
  rewrite Nat2Z.inj_mul, Z.mul_comm. apply Z.div_mul.
  unfold CIRCUITS_PER_MCCB. lia.
Qed.

Lemma standardSizes_sorted : StronglySorted Z.le standardSizes.
Proof. unfold standardSizes. repeat constructor; lia. Qed.

Lemma standardSizes_nonzero : Forall (fun s => s <> 0%Z) standardSizes.
Proof. unfold standardSizes. repeat constructor; lia. Qed.

Lemma mccbGroups_lookup l k g :
  mccbGroups l !! k = Some g ->
  (CIRCUITS_PER_MCCB * k < length l)%nat /\
  g = mccbAt l (CIRCUITS_PER_MCCB * k).
Proof.
  rewrite mccbGroups_chunks_eq, list_lookup_fmap.
  destruct (seq 0 (chunkCount (length l)) !! k) as [k'|] eqn:E;
    [|discriminate].
  apply lookup_seq in E as [-> Hk]. cbn. intros [= <-].
  split; [|reflexivity].
  destruct (Nat.le_gt_cases (length l) (CIRCUITS_PER_MCCB * k)) as [Hle|Hgt];
    [|exact Hgt].
  apply chunkCount_le in Hle. lia.
Qed.

Lemma mccbAt_circuits l i :
  Mccb.circuits (mccbAt l i) = take CIRCUITS_PER_MCCB (drop i l).
Proof. apply slice_chunk. Qed.

Lemma mccbAt_totalAmps l i :
  (Mccb.totalAmps (mccbAt l i)
   == sumQ (Circuit.amps <$> Mccb.circuits (mccbAt l i)))%Q.
Proof.
  cbn [Mccb.totalAmps Mccb.circuits mccbAt]. rewrite totalAmps_sum. ring.
Qed.

Lemma mccbAt_size l i :
  Mccb.size (mccbAt l i)
  = or_else
      (find (fun s => Qle_bool (Mccb.totalAmps (mccbAt l i) * 1.25)
                               (inject_Z s)) standardSizes) 400.
Proof. reflexivity. Qed.

(** C7: [mccbGroups] cuts the circuits, in order, into consecutive blocks:
    the blocks put end to end give back the sequence; block number [k]
    (counted from 0) has id [k + 1] and holds the 6 circuits from position
    [6 * k], fewer (but at least one) only if it is the last block; its
    [totalAmps] is the sum of the amperages of its circuits; its size is
    the least standard size reaching [totalAmps * 1.25], or 400 when none
    does.  Three circuits give one block holding all three. *)
Theorem mccbGroups_partition (activeCircuits : list Circuit.t) :
  concat (Mccb.circuits <$> mccbGroups activeCircuits) = activeCircuits /\
  (forall k g,
     mccbGroups activeCircuits !! k = Some g ->
     Mccb.id g = (Z.of_nat k + 1)%Z /\
     Mccb.circuits g = take 6 (drop (6 * k) activeCircuits) /\
     (1 <= length (Mccb.circuits g) <= 6)%nat /\
     ((S k < length (mccbGroups activeCircuits))%nat ->
      length (Mccb.circuits g) = 6%nat) /\
     (Mccb.totalAmps g == sumQ (Circuit.amps <$> Mccb.circuits g))%Q /\
     ((exists s, s ∈ standardSizes /\
                 (Mccb.totalAmps g * 1.25 <= inject_Z s)%Q) ->
      least_at_least standardSizes (Mccb.totalAmps g * 1.25) (Mccb.size g)) /\
     (none_at_least standardSizes (Mccb.totalAmps g * 1.25) ->
      Mccb.size g = 400%Z)) /\
  (length activeCircuits = 3%nat ->
   exists g, mccbGroups activeCircuits = [g] /\
             Mccb.circuits g = activeCircuits).
Proof.
  split; [|split].
  - rewrite mccbGroups_chunks_eq, <- list_fmap_compose.
    rewrite (list_fmap_ext _
               (fun k => take CIRCUITS_PER_MCCB
                           (drop (CIRCUITS_PER_MCCB * k) activeCircuits))).
    + rewrite concat_chunks. apply take_ge.
      pose proof (chunkCount_gt (length activeCircuits)
                    (chunkCount (length activeCircuits))).
      unfold CIRCUITS_PER_MCCB in *. lia.
    + intros i k _. cbn. apply slice_chunk.
  - intros k g Hg.
    destruct (mccbGroups_lookup _ _ _ Hg) as [Hk ->].
    split; [apply mccb_id_of_chunk|]. split; [apply mccbAt_circuits|].
    split; [|split; [|split; [apply mccbAt_totalAmps|]]].
    + rewrite mccbAt_circuits, length_take, length_drop.
      unfold CIRCUITS_PER_MCCB in *. lia.
    + intros Hnext.
      destruct (lookup_lt_is_Some_2 (mccbGroups activeCircuits) (S k) Hnext)
        as [g' Hg'].
      apply mccbGroups_lookup in Hg' as [Hk' _].
      rewrite mccbAt_circuits, length_take, length_drop.
      unfold CIRCUITS_PER_MCCB in *. lia.
    + rewrite mccbAt_size.
      apply (saturating_lookup _ standardSizes 400).
      * apply standardSizes_sorted.
      * apply standardSizes_nonzero.
  - intros H3. rewrite mccbGroups_chunks_eq, H3.
    eexists. split; [reflexivity|].
    cbn [mccbAt Mccb.circuits]. unfold slice, CIRCUITS_PER_MCCB.
    cbn. apply take_ge. lia.
Qed.

Lemma mccbGroups_partition_witness :
  exists g, mccbGroups threeCircuits = [g] /\
            Mccb.circuits g = threeCircuits.
Proof.
  destruct (mccbGroups_partition threeCircuits) as (_ & _ & H).
  apply H. reflexivity.
Defined.

End MccbGrouping.

(** * Further properties of [calculateRequirements] *)

Section Capacity.
Local Open Scope Q_scope.

Lemma Math_ceil_div_bounds (T e : Z) :
  (1 <= e)%Z ->
  let n := Math_ceil (inject_Z T / inject_Z e) in
  ((n - 1) * e < T <= n * e)%Z.
Proof.
  intros He n.
  assert (0 < inject_Z e) as Hpos by (apply inject_Z_pos; lia).
  pose proof (Qle_ceiling (inject_Z T / inject_Z e)) as Hup.
  pose proof (Qceiling_lt (inject_Z T / inject_Z e)) as Hlo.
  fold (Math_ceil (inject_Z T / inject_Z e)) in Hup, Hlo. fold n in Hup, Hlo.
  assert (inject_Z T == inject_Z T / inject_Z e * inject_Z e) as HT
    by (field; lra).
  split.
  - rewrite Zlt_Qlt, inject_Z_mult. rewrite HT.
    apply Qmult_lt_compat_r; assumption.
  - rewrite Zle_Qle, inject_Z_mult. rewrite HT.
    apply Qmult_le_compat_r; lra.
Qed.

Lemma effectiveCabinetsPerPort_pos p : (1 <= effectiveCabinetsPerPort p)%Z.
Proof. unfold effectiveCabinetsPerPort. lia. Qed.

Lemma effectiveCabinetsPerCircuit_pos env :
  (1 <= effectiveCabinetsPerCircuit env)%Z.
Proof. unfold effectiveCabinetsPerCircuit. lia. Qed.

(** The ports and the circuits of a result have room for all cabinets. *)
Lemma requirements_have_room w h p env r :
  calculateRequirements w h p env = Some r ->
  (totalCabinets r <= lanPorts r * effectiveCabinetsPerPort p)%Z /\
  (totalCabinets r <= circuits220v r * effectiveCabinetsPerCircuit env)%Z.
Proof.
  intros Hr. apply calculateRequirements_fields in Hr
    as (_ & _ & _ & _ & _ & _ & _ & _ & _ & Hl & _ & _ & _ & Hc & _).
  rewrite Hl, Hc. split.
  - apply Math_ceil_div_bounds, effectiveCabinetsPerPort_pos.
  - apply Math_ceil_div_bounds, effectiveCabinetsPerCircuit_pos.
Qed.

(** X1: at a supported pitch, where no cabinet is without pixels, the
    [lanPorts] of a result is the least number of ports that holds all
    cabinets at [effectiveCabinetsPerPort] cabinets a port (one port
    fewer would not do), and its [circuits220v] is the least number of
    circuits at [effectiveCabinetsPerCircuit] cabinets a circuit. *)
Theorem ports_and_circuits_just_enough w h p env r :
  In p PIXEL_PITCHES ->
  calculateRequirements w h p env = Some r ->
  ((lanPorts r - 1) * effectiveCabinetsPerPort p < totalCabinets r
   <= lanPorts r * effectiveCabinetsPerPort p)%Z /\
  ((circuits220v r - 1) * effectiveCabinetsPerCircuit env < totalCabinets r
   <= circuits220v r * effectiveCabinetsPerCircuit env)%Z.
Proof.
  intros _ Hr.
  pose proof (effectiveCabinetsPerPort_pos p) as Hp.
  pose proof (effectiveCabinetsPerCircuit_pos env) as He.
  apply calculateRequirements_fields in Hr
    as (_ & _ & _ & _ & _ & _ & _ & _ & _ & Hl & _ & _ & _ & Hc & _).
  rewrite Hl, Hc.
  split; apply Math_ceil_div_bounds; assumption.
Qed.

Lemma ports_and_circuits_just_enough_witness :
  exists r,
    calculateRequirements 5000 3000 2.5 indoor = Some r /\
    ((lanPorts r - 1) * effectiveCabinetsPerPort 2.5 < totalCabinets r
     <= lanPorts r * effectiveCabinetsPerPort 2.5)%Z.
Proof.
  eexists. split; [vm_compute; reflexivity|].
  apply (ports_and_circuits_just_enough 5000 3000 2.5 indoor).
  - simpl. tauto.
  - vm_compute. reflexivity.
Defined.

(** The share of a group never exceeds the capacity the group count was
    computed from. *)
Lemma groupSize_within_capacity T e n g :
  (0 <= T)%Z -> (1 <= e)%Z -> (1 <= n)%Z -> (T <= n * e)%Z -> (0 <= g)%Z ->
  (groupSize T n g <= e)%Z.
Proof.
  intros HT He Hn Hcap Hg. unfold groupSize.
  pose proof (Z.div_mod T n ltac:(lia)) as Hdm.
  pose proof (Z.mod_pos_bound T n ltac:(lia)) as Hm.
  set (q := (T / n)%Z) in *. set (m := (T mod n)%Z) in *.
  destruct (Z.ltb_spec g m).
  - assert (n * q < n * e)%Z as Hlt by lia.
    apply Z.mul_lt_mono_pos_l in Hlt; lia.
  - assert (n * q <= n * e)%Z as Hle by lia.
    apply Z.mul_le_mono_pos_l in Hle; lia.
Qed.

Lemma supported_pitch_port_budget p :
  In p PIXEL_PITCHES ->
  inject_Z (effectiveCabinetsPerPort p * pixelsPerCabinet p)
  <= SAFE_PIXELS_PER_PORT.
Proof. intros H. each_pitch H; vm_compute; discriminate. Qed.

Lemma circuit_budget env :
  inject_Z (effectiveCabinetsPerCircuit env)
  * (inject_Z (peakWattsPerPanel (POWER_SPECS env)) / 220) <= 20 * 0.8.
Proof. destruct env; vm_compute; discriminate. Qed.

(** X2: for positive dimensions and a supported pitch, the balanced
    assignment of the cabinets of a result to its LAN ports gives no port
    more than [effectiveCabinetsPerPort] cabinets, hence no port more
    pixels than the safe budget of 552,500. *)
Theorem no_port_over_safe_pixels w h p env r :
  0 < w -> 0 < h -> In p PIXEL_PITCHES ->
  calculateRequirements w h p env = Some r ->
  exists portAssignments,
    generateAssignments (totalCabinets r) (lanPorts r) = Some portAssignments
    /\ forall g, (0 <= g < lanPorts r)%Z ->
         (occurrences g portAssignments <= effectiveCabinetsPerPort p)%Z /\
         inject_Z (occurrences g portAssignments * pixelsPerCabinet p)
         <= SAFE_PIXELS_PER_PORT.
Proof.
  intros Hw Hh Hp Hr.
  destruct (requirements_describe_grid w h p env r Hw Hh Hr)
    as (_ & _ & _ & Ht & Hl & _).
  destruct (requirements_have_room w h p env r Hr) as [Hcap _].
  exists (balancedUpTo (totalCabinets r) (lanPorts r) (lanPorts r)).
  split; [apply generateAssignments_balanced; lia|].
  intros g Hg. rewrite occurrences_balanced by lia.
  assert (groupSize (totalCabinets r) (lanPorts r) g
          <= effectiveCabinetsPerPort p)%Z as Hle.
  { apply groupSize_within_capacity;
      first [lia | apply effectiveCabinetsPerPort_pos]. }
  split; [exact Hle|].
  pose proof (supported_pitch_port_budget p Hp) as Hb.
  pose proof (supported_pitch_pixelsPerCabinet p Hp) as Hc.
  eapply Qle_trans; [|exact Hb]. rewrite <- Zle_Qle.
  apply Z.mul_le_mono_nonneg_r; lia.
Qed.

Lemma no_port_over_safe_pixels_witness :
  exists r portAssignments,
    calculateRequirements 5000 3000 2.5 indoor = Some r /\
    generateAssignments (totalCabinets r) (lanPorts r) = Some portAssignments
    /\ forall g, (0 <= g < lanPorts r)%Z ->
         (occurrences g portAssignments <= effectiveCabinetsPerPort 2.5)%Z /\
         inject_Z (occurrences g portAssignments * pixelsPerCabinet 2.5)
         <= SAFE_PIXELS_PER_PORT.
Proof.
  eexists.
  destruct (no_port_over_safe_pixels 5000 3000 2.5 indoor _
              eq_refl eq_refl ltac:(simpl; tauto) eq_refl) as [pa Hpa].
  exists pa. split; [vm_compute; reflexivity|exact Hpa].
Defined.

(** X3: for positive dimensions, the balanced assignment of the cabinets
    of a result to its circuits gives no circuit more than
    [effectiveCabinetsPerCircuit] cabinets, hence no circuit more than the
    16 A that a 20 A circuit may carry at the safe load factor 0.8. *)
Theorem no_circuit_over_safe_amps w h p env r :
  0 < w -> 0 < h ->
  calculateRequirements w h p env = Some r ->
  exists circuitAssignments,
    generateAssignments (totalCabinets r) (circuits220v r)
      = Some circuitAssignments
    /\ forall g, (0 <= g < circuits220v r)%Z ->
         (occurrences g circuitAssignments
          <= effectiveCabinetsPerCircuit env)%Z /\
         inject_Z (occurrences g circuitAssignments)
         * (inject_Z (peakWattsPerPanel (POWER_SPECS env)) / 220)
         <= 20 * 0.8.
Proof.
  intros Hw Hh Hr.
  destruct (requirements_describe_grid w h p env r Hw Hh Hr)
    as (_ & _ & _ & Ht & _ & Hc).
  destruct (requirements_have_room w h p env r Hr) as [_ Hcap].
  exists (balancedUpTo (totalCabinets r) (circuits220v r) (circuits220v r)).
  split; [apply generateAssignments_balanced; lia|].
  intros g Hg. rewrite occurrences_balanced by lia.
  assert (groupSize (totalCabinets r) (circuits220v r) g
          <= effectiveCabinetsPerCircuit env)%Z as Hle.
  { apply groupSize_within_capacity;
      first [lia | apply effectiveCabinetsPerCircuit_pos]. }
  split; [exact Hle|].
  eapply Qle_trans; [|apply (circuit_budget env)].
  apply Qmult_le_compat_r.
  - rewrite <- Zle_Qle. exact Hle.
  - destruct env; vm_compute; discriminate.
Qed.

Lemma no_circuit_over_safe_amps_witness :
  exists r circuitAssignments,
    calculateRequirements 5000 3000 2.5 outdoor = Some r /\
    generateAssignments (totalCabinets r) (circuits220v r)
      = Some circuitAssignments
    /\ forall g, (0 <= g < circuits220v r)%Z ->
         (occurrences g circuitAssignments
          <= effectiveCabinetsPerCircuit outdoor)%Z /\
         inject_Z (occurrences g circuitAssignments)
         * (inject_Z (peakWattsPerPanel (POWER_SPECS outdoor)) / 220)
         <= 20 * 0.8.
Proof.
  eexists.
  destruct (no_circuit_over_safe_amps 5000 3000 2.5 outdoor _
              eq_refl eq_refl eq_refl) as [ca Hca].
  exists ca. split; [vm_compute; reflexivity|exact Hca].
Defined.

End Capacity.

Section LookupOrder.
Local Open Scope Q_scope.

Lemma find_elem_of {A} (pred : A -> bool) (xs : list A) (a : A) :
  find pred xs = Some a -> a ∈ xs.
Proof.
  induction xs as [|b xs IH]; cbn [find]; [discriminate|].
  destruct (pred b).
  - intros [= ->]. left.
  - intros H. right. apply IH, H.
Qed.

Lemma or_else_elem_of (found : option Z) (fallback : Z) (table : list Z) :
  (forall s, found = Some s -> s ∈ table) -> fallback ∈ table ->
  or_else found fallback ∈ table.
Proof.
  intros Hfound Hfb. unfold or_else. destruct found as [s|]; [|exact Hfb].
  destruct (s =? 0)%Z; [exact Hfb|]. apply Hfound. reflexivity.
Qed.

Lemma last_of_greatest table :
  StronglySorted Z.le table ->
  forall s, s ∈ table -> (s <= last_of table)%Z.
Proof.
  unfold last_of. induction 1 as [|a table Hs IH Hall]; intros s Hin.
  - inversion Hin.
  - rewrite Forall_forall in Hall.
    destruct table as [|b table]; cbn [List.last].
    + apply elem_of_cons in Hin as [->|Hin]; [lia|inversion Hin].
    + apply elem_of_cons in Hin as [->|Hin].
      * transitivity b; [apply Hall; left|apply IH; left].
      * apply IH, Hin.
Qed.

(** A larger target never gets a smaller entry of the table. *)
Lemma saturating_lookup_mono table (t t' : Q) :
  StronglySorted Z.le table -> Forall (fun s => s <> 0%Z) table ->
  t <= t' ->
  (or_else (find (fun s => Qle_bool t (inject_Z s)) table) (last_of table)
   <= or_else (find (fun s => Qle_bool t' (inject_Z s)) table)
              (last_of table))%Z.
Proof.
  intros Hsorted Hnz Hle.
  pose proof (find_first_reaching t table Hsorted) as Hf.
  pose proof (find_first_reaching t' table Hsorted) as Hf'.
  pose proof (last_of_greatest table Hsorted) as Hlast.
  rewrite Forall_forall in Hnz.
  destruct (find (fun s => Qle_bool t (inject_Z s)) table) as [s|];
    destruct (find (fun s => Qle_bool t' (inject_Z s)) table) as [s'|];
    cbn [or_else].
  - destruct Hf as (Hin & _ & Hmin). destruct Hf' as (Hin' & Hge' & _).
    pose proof (Hnz s Hin) as Hs. pose proof (Hnz s' Hin') as Hs'.
    apply Z.eqb_neq in Hs, Hs'. rewrite Hs, Hs'.
    apply Hmin; [exact Hin'|lra].
  - destruct Hf as (Hin & _ & _). pose proof (Hnz s Hin) as Hs.
    apply Z.eqb_neq in Hs. rewrite Hs. apply Hlast, Hin.
  - destruct Hf' as (Hin' & Hge' & _). specialize (Hf s' Hin'). lra.
  - lia.
Qed.

End LookupOrder.

Section Comparisons.
Local Open Scope Q_scope.

(** X4: whatever the inputs, the [mainBreakerSize] of a result is one of
    the standard breaker sizes; the fallback never leaves the table. *)
Theorem mainBreakerSize_is_standard w h p env r :
  calculateRequirements w h p env = Some r ->
  mainBreakerSize r ∈ STANDARD_BREAKER_SIZES.
Proof.
  intros Hr. apply calculateRequirements_fields in Hr.
  destruct Hr
    as (_ & _ & _ & _ & _ & _ & _ & _ & _ & _ & _ & _ & _ & _ & Hm & _).
  rewrite Hm. apply or_else_elem_of.
  - intros s Hs. apply find_elem_of in Hs. exact Hs.
  - unfold STANDARD_BREAKER_SIZES. rewrite !elem_of_cons. cbn. tauto.
Qed.

Lemma mainBreakerSize_is_standard_witness :
  exists r,
    calculateRequirements (-5000) 3000 2.5 indoor = Some r /\
    mainBreakerSize r ∈ STANDARD_BREAKER_SIZES.
Proof.
  eexists. split; [vm_compute; reflexivity|].
  apply (mainBreakerSize_is_standard (-5000) 3000 2.5 indoor).
  vm_compute. reflexivity.
Defined.

Lemma Qdiv_mono_l a b e : 0 < e -> a <= b -> a / e <= b / e.
Proof.
  intros He Hab. apply Qle_shift_div_l; [exact He|].
  assert (a / e * e == a) as -> by (field; lra). exact Hab.
Qed.

(** X5: at a supported pitch and in the same environment, a wall that is
    at least as wide and as high as another needs at least as many
    cabinets in each direction and in total, as many pixels, LAN ports
    and circuits, as much peak power and as large a main breaker. *)
Theorem larger_wall_never_needs_less w h w' h' p env r r' :
  0 < w -> 0 < h -> w <= w' -> h <= h' -> In p PIXEL_PITCHES ->
  calculateRequirements w h p env = Some r ->
  calculateRequirements w' h' p env = Some r' ->
  (cabinetsWidth r <= cabinetsWidth r')%Z /\
  (cabinetsHeight r <= cabinetsHeight r')%Z /\
  (totalCabinets r <= totalCabinets r')%Z /\
  (totalPixels r <= totalPixels r')%Z /\
  (lanPorts r <= lanPorts r')%Z /\
  (circuits220v r <= circuits220v r')%Z /\
  (peakPowerWatts r <= peakPowerWatts r')%Z /\
  (mainBreakerSize r <= mainBreakerSize r')%Z.
Proof.
  intros Hw Hh Hww Hhh Hp Hr Hr'.
  pose proof (supported_pitch_pos p Hp) as Hpp.
  destruct (requirements_describe_grid w h p env r Hw Hh Hr)
    as (_ & Hcw1 & Hch1 & Ht1 & _).
  apply calculateRequirements_fields in Hr
    as (_ & _ & _ & Hcw & Hch & Ht & Hrw & Hrh & Htp & Hl & Hpk & _ & Ha
        & Hc & Hm & _).
  apply calculateRequirements_fields in Hr'
    as (_ & _ & _ & Hcw' & Hch' & Ht' & Hrw' & Hrh' & Htp' & Hl' & Hpk' & _
        & Ha' & Hc' & Hm' & _).
  assert (cabinetsWidth r <= cabinetsWidth r')%Z as Hcwle.
  { rewrite Hcw, Hcw'. apply Math_ceil_mono, Qdiv_mono_l; lra. }
  assert (cabinetsHeight r <= cabinetsHeight r')%Z as Hchle.
  { rewrite Hch, Hch'. apply Math_ceil_mono, Qdiv_mono_l; lra. }
  assert (totalCabinets r <= totalCabinets r')%Z as Htle.
  { rewrite Ht, Ht'. apply Z.mul_le_mono_nonneg; lia. }
  assert (peakPowerWatts r <= peakPowerWatts r')%Z as Hpkle.
  { rewrite Hpk, Hpk'. apply Z.mul_le_mono_nonneg_r; [|exact Htle].
    destruct env; cbn; lia. }
  repeat split; try assumption.
  - rewrite Htp, Htp', Hrw, Hrw', Hrh, Hrh'.
    apply Z.mul_le_mono_nonneg.
    + apply Math_round_nonneg, Qle_shift_div_l; lra.
    + apply Math_round_mono, Qdiv_mono_l; lra.
    + apply Math_round_nonneg, Qle_shift_div_l; lra.
    + apply Math_round_mono, Qdiv_mono_l; lra.
  - rewrite Hl, Hl'. apply Math_ceil_mono, Qdiv_mono_l.
    + apply inject_Z_pos. pose proof (effectiveCabinetsPerPort_pos p). lia.
    + rewrite <- Zle_Qle. exact Htle.
  - rewrite Hc, Hc'. apply Math_ceil_mono, Qdiv_mono_l.
    + apply inject_Z_pos.
      pose proof (effectiveCabinetsPerCircuit_pos env). lia.
    + rewrite <- Zle_Qle. exact Htle.
  - rewrite Hm, Hm'. apply saturating_lookup_mono.
    + apply STANDARD_BREAKER_SIZES_sorted.
    + apply STANDARD_BREAKER_SIZES_nonzero.
    + unfold requiredMainAmps. rewrite Ha, Ha'.
      apply Qmult_le_compat_r; [|discriminate].
      apply Qdiv_mono_l; [reflexivity|]. rewrite <- Zle_Qle. exact Hpkle.
Qed.

Lemma larger_wall_never_needs_less_witness :
  exists r r',
    calculateRequirements 5000 3000 2.5 indoor = Some r /\
    calculateRequirements 8000 4500 2.5 indoor = Some r' /\
    (totalCabinets r <= totalCabinets r')%Z /\
    (lanPorts r <= lanPorts r')%Z /\
    (mainBreakerSize r <= mainBreakerSize r')%Z.
Proof.
  eexists. eexists.
  pose proof (larger_wall_never_needs_less 5000 3000 8000 4500 2.5
                indoor _ _ eq_refl eq_refl
                (Qle_bool_imp_le 5000 8000 eq_refl)
                (Qle_bool_imp_le 3000 4500 eq_refl)
                ltac:(simpl; tauto) eq_refl eq_refl) as H.
  split; [vm_compute; reflexivity|]. split; [vm_compute; reflexivity|].
  split; [apply H|]. split; apply H.
Defined.

(** X6: for positive dimensions, the outdoor run draws exactly twice the
    peak power, average power and current of the indoor run, and needs at
    least as many circuits and at least as large a main breaker. *)
Theorem outdoor_doubles_power w h p r_in r_out :
  0 < w -> 0 < h ->
  calculateRequirements w h p indoor = Some r_in ->
  calculateRequirements w h p outdoor = Some r_out ->
  peakPowerWatts r_out = (2 * peakPowerWatts r_in)%Z /\
  avgPowerWatts r_out = (2 * avgPowerWatts r_in)%Z /\
  amps220v r_out == 2 * amps220v r_in /\
  (circuits220v r_in <= circuits220v r_out)%Z /\
  (mainBreakerSize r_in <= mainBreakerSize r_out)%Z.
Proof.
  intros Hw Hh Hr Hr'.
  destruct (requirements_describe_grid w h p indoor r_in Hw Hh Hr)
    as (_ & _ & _ & Ht1 & _).
  apply calculateRequirements_fields in Hr
    as (_ & _ & _ & Hcw & Hch & Ht & _ & _ & _ & _ & Hpk & Hav & Ha
        & Hc & Hm & _).
  apply calculateRequirements_fields in Hr'
    as (_ & _ & _ & Hcw' & Hch' & Ht' & _ & _ & _ & _ & Hpk' & Hav' & Ha'
        & Hc' & Hm' & _).
  assert (totalCabinets r_out = totalCabinets r_in) as HT by congruence.
  cbn [POWER_SPECS peakWattsPerPanel avgWattsPerPanel] in *.
  assert (peakPowerWatts r_out = (2 * peakPowerWatts r_in)%Z) as Hpk2
    by lia.
  assert (amps220v r_out == 2 * amps220v r_in) as Ha2.
  { rewrite Ha, Ha', Hpk2, inject_Z_mult. field. }
  repeat split; [exact Hpk2 | lia | exact Ha2 | |].
  - rewrite Hc, Hc', HT. apply ports_antimono; [lia|].
    vm_compute. split; discriminate.
  - rewrite Hm, Hm'. apply saturating_lookup_mono.
    + apply STANDARD_BREAKER_SIZES_sorted.
    + apply STANDARD_BREAKER_SIZES_nonzero.
    + unfold requiredMainAmps. rewrite Ha2.
      assert (0 <= amps220v r_in).
      { rewrite Ha. apply Qle_shift_div_l; [reflexivity|].
        rewrite Qmult_0_l. apply inject_Z_nonneg. lia. }
      lra.
Qed.

Lemma outdoor_doubles_power_witness :
  exists r_in r_out,
    calculateRequirements 5000 3000 2.5 indoor = Some r_in /\
    calculateRequirements 5000 3000 2.5 outdoor = Some r_out /\
    peakPowerWatts r_out = (2 * peakPowerWatts r_in)%Z /\
    (circuits220v r_in <= circuits220v r_out)%Z.
Proof.
  eexists. eexists.
  split; [vm_compute; reflexivity|]. split; [vm_compute; reflexivity|].
  pose proof (outdoor_doubles_power 5000 3000 2.5 _ _
                eq_refl eq_refl eq_refl eq_refl) as H.
  split; apply H.
Defined.

(** X7: turning the wall by a quarter (swapping width and height) swaps
    the two sides of the resolution and leaves the pixel count, the
    resolution class and the area unchanged. *)
Theorem resolution_ignores_orientation w h p env r r' :
  calculateRequirements w h p env = Some r ->
  calculateRequirements h w p env = Some r' ->
  resolutionWidth r' = resolutionHeight r /\
  resolutionHeight r' = resolutionWidth r /\
  totalPixels r' = totalPixels r /\
  resolutionClass r' = resolutionClass r /\
  areaSqM r' == areaSqM r.
Proof.
  unfold calculateRequirements.
  destruct (div w p) as [wp|]; [|discriminate].
  destruct (div h p) as [hp|]; [|discriminate].
  destruct (div 500 p); [|discriminate].
  destruct (div 1000 p); [|discriminate].
  cbv beta iota zeta.
  destruct (div SAFE_PIXELS_PER_PORT _); [|discriminate].
  intros [= <-] [= <-].
  cbn [resolutionWidth resolutionHeight resolutionClass totalPixels areaSqM].
  split; [reflexivity|]. split; [reflexivity|].
  split; [apply Z.mul_comm|]. split.
  - rewrite (Z.max_comm (Math_round hp)), (Z.min_comm (Math_round hp)).
    reflexivity.
  - ring.
Qed.

Lemma resolution_ignores_orientation_witness :
  exists r r',
    calculateRequirements 5000 3000 2.5 indoor = Some r /\
    calculateRequirements 3000 5000 2.5 indoor = Some r' /\
    totalPixels r' = totalPixels r /\
    resolutionClass r' = resolutionClass r.
Proof.
  eexists. eexists.
  split; [vm_compute; reflexivity|]. split; [vm_compute; reflexivity|].
  pose proof (resolution_ignores_orientation 5000 3000 2.5 indoor _ _
                eq_refl eq_refl) as H.
  split; apply H.
Defined.

End Comparisons.

(** * The selection of a result in [App.tsx] *)

Section Selection.
Import App.
Local Open Scope Q_scope.

Lemma find_requested w h env p (pitches : list Q) :
  Forall (fun q => In q PIXEL_PITCHES) pitches ->
  find (fun r => match r with
                 | Some r => Qeq_bool (pitch r) p
                 | None => false
                 end)
       (List.map (fun q => calculateRequirements w h q env) pitches)
  = match find (fun q => Qeq_bool q p) pitches with
    | Some q => Some (calculateRequirements w h q env)
    | None => None
    end.
Proof.
  induction 1 as [|q pitches Hq _ IH]; [reflexivity|].
  cbn [List.map find].
  destruct (supported_pitch_defined w h q env Hq) as [r Hr].
  pose proof (calculateRequirements_fields _ _ _ _ _ Hr)
    as (_ & _ & Hpitch & _).
  rewrite Hr, Hpitch.
  destruct (Qeq_bool q p); [rewrite Hr; reflexivity|apply IH].
Qed.

Lemma all_pitches_supported :
  Forall (fun q => In q PIXEL_PITCHES) PIXEL_PITCHES.
Proof. apply Forall_forall. intros q Hq. apply list_elem_of_In, Hq. Qed.

(** X8: with non-zero dimensions, selecting a supported pitch makes
    [selectedResult] the result that [calculateRequirements] gives for the
    current dimensions, environment and that pitch; it is never [null]
    and carries the selected pitch. *)
Theorem selectedResult_is_the_requested_pitch width height env p :
  ~ Number width == 0 -> ~ Number height == 0 -> In p PIXEL_PITCHES ->
  selectedResult (results width height env) (Some p)
    = calculateRequirements (Number width) (Number height) p env /\
  exists r, selectedResult (results width height env) (Some p) = Some r /\
            pitch r = p.
Proof.
  intros Hw Hh Hp.
  assert (selectedResult (results width height env) (Some p)
          = calculateRequirements (Number width) (Number height) p env) as E.
  { unfold selectedResult, results.
    destruct (falsy (Number width)) eqn:Ew;
      [apply falsy_iff in Ew; contradiction|].
    destruct (falsy (Number height)) eqn:Eh;
      [apply falsy_iff in Eh; contradiction|].
    cbn [orb]. rewrite find_requested by apply all_pitches_supported.
    each_pitch Hp; reflexivity. }
  split; [exact E|]. rewrite E.
  destruct (supported_pitch_defined (Number width) (Number height) p env Hp)
    as [r Hr].
  exists r. split; [exact Hr|].
  apply calculateRequirements_fields in Hr. tauto.
Qed.

Lemma selectedResult_is_the_requested_pitch_witness :
  selectedResult (results (Num 5000) (Num 3000) indoor) (Some 2.9)
  = calculateRequirements 5000 3000 2.9 indoor.
Proof.
  apply (selectedResult_is_the_requested_pitch (Num 5000) (Num 3000)
           indoor 2.9); [discriminate | discriminate | simpl; tauto].
Defined.

(** X9: [selectedResult] is [null] when no pitch is selected, when the
    width or the height is zero (a selection made earlier then shows
    nothing), and when the selected pitch equals no supported pitch. *)
Theorem selectedResult_without_selection width height env p :
  selectedResult (results width height env) None = None /\
  (Number width == 0 \/ Number height == 0 ->
   selectedResult (results width height env) (Some p) = None) /\
  ((forall q, In q PIXEL_PITCHES -> ~ q == p) ->
   selectedResult (results width height env) (Some p) = None).
Proof.
  split; [reflexivity|]. split.
  - intros Hz. unfold selectedResult, results.
    assert (falsy (Number width) || falsy (Number height) = true) as ->;
      [|reflexivity].
    destruct Hz as [Hz|Hz]; apply falsy_iff in Hz; rewrite Hz;
      [reflexivity|apply orb_true_r].
  - intros Hnone. unfold selectedResult, results.
    destruct (falsy (Number width) || falsy (Number height));
      [reflexivity|].
    rewrite find_requested by apply all_pitches_supported.
    assert (find (fun q => Qeq_bool q p) PIXEL_PITCHES = None) as ->;
      [|reflexivity].
    assert (forall q, In q PIXEL_PITCHES -> Qeq_bool q p = false) as Hf.
    { intros q Hq. destruct (Qeq_bool q p) eqn:E; [|reflexivity].
      apply Qeq_bool_iff in E. exfalso. exact (Hnone q Hq E). }
    unfold PIXEL_PITCHES in *. cbn [find].
    rewrite !Hf by (cbn; tauto). reflexivity.
Qed.

Lemma selectedResult_without_selection_witness :
  selectedResult (results Empty (Num 3000) indoor) (Some 2.5) = None /\
  selectedResult (results (Num 5000) (Num 3000) indoor) (Some 2.0) = None.
Proof.
  split.
  - destruct (selectedResult_without_selection Empty (Num 3000) indoor 2.5)
      as (_ & H & _).
    apply H. left. reflexivity.
  - destruct (selectedResult_without_selection (Num 5000) (Num 3000)
                indoor 2.0) as (_ & _ & H).
    apply H. intros q Hq. each_pitch Hq; discriminate.
Defined.

End Selection.

(** * Further properties of [generateAssignments] and of the snake *)

Section DistributionEdges.
Local Open Scope Z_scope.

Lemma balancedUpTo_few_items T G (k : nat) :
  0 <= T <= G -> 1 <= G -> Z.of_nat k <= G ->
  balancedUpTo T G (Z.of_nat k) = seqZ 0 (Z.min (Z.of_nat k) T).
Proof.
  intros HT HG. induction k as [|k IH]; intros Hk.
  - rewrite Z.min_l by lia. reflexivity.
  - rewrite balancedUpTo_succ, IH by lia.
    assert (groupSize T G (Z.of_nat k)
            = if Z.of_nat k <? T then 1 else 0) as ->.
    { unfold groupSize. destruct (Z.eq_dec T G) as [->|Hne].
      - rewrite Z.div_same, Z.mod_same by lia.
        destruct (Z.ltb_spec (Z.of_nat k) 0);
          destruct (Z.ltb_spec (Z.of_nat k) G); lia.
      - rewrite Z.div_small, Z.mod_small by lia. reflexivity. }
    destruct (Z.ltb_spec (Z.of_nat k) T) as [Hlt|Hge].
    + rewrite !Z.min_l by lia. rewrite seqZ_S. reflexivity.
    + rewrite !Z.min_r by lia. cbn. apply app_nil_r.
Qed.

(** X10: [generateAssignments] fails (a [RangeError]) on a negative item
    count; with no group to serve it leaves every item in group 0; and
    with at least as many groups as items it gives item [i] to group [i],
    so that the groups from [totalItems] on stay empty. *)
Theorem generateAssignments_edge_cases totalItems groupCount :
  (totalItems < 0 -> generateAssignments totalItems groupCount = None) /\
  (0 <= totalItems -> groupCount <= 0 ->
   generateAssignments totalItems groupCount
   = Some (replicate (Z.to_nat totalItems) 0)) /\
  (0 <= totalItems <= groupCount -> 1 <= groupCount ->
   generateAssignments totalItems groupCount = Some (seqZ 0 totalItems)).
Proof.
  split; [|split].
  - intros H. unfold generateAssignments.
    destruct (Z.ltb_spec totalItems 0); [reflexivity|lia].
  - intros HT HG. unfold generateAssignments.
    destruct (Z.ltb_spec totalItems 0); [lia|].
    rewrite seqZ_nil by lia. reflexivity.
  - intros HT HG. rewrite generateAssignments_balanced by lia.
    pose proof (balancedUpTo_few_items totalItems groupCount
                  (Z.to_nat groupCount)) as H.
    rewrite Z2Nat.id in H by lia. rewrite H by lia.
    rewrite Z.min_r by lia. reflexivity.
Qed.

Lemma generateAssignments_edge_cases_witness :
  generateAssignments (-1) 4 = None /\
  generateAssignments 3 0 = Some [0; 0; 0] /\
  generateAssignments 3 5 = Some [0; 1; 2].
Proof.
  split; [|split].
  - destruct (generateAssignments_edge_cases (-1) 4) as (H & _ & _).
    apply H. lia.
  - destruct (generateAssignments_edge_cases 3 0) as (_ & H & _).
    apply H; lia.
  - destruct (generateAssignments_edge_cases 3 5) as (_ & _ & H).
    apply H; lia.
Defined.

Lemma balancedUpTo_sorted T G (k : nat) :
  StronglySorted Z.le (balancedUpTo T G (Z.of_nat k)) /\
  forall v, v ∈ balancedUpTo T G (Z.of_nat k) -> v < Z.of_nat k.
Proof.
  induction k as [|k [IHs IHb]].
  - split; [constructor|]. intros v Hv. inversion Hv.
  - rewrite balancedUpTo_succ. split.
    + apply StronglySorted_app_2; [|exact IHs|].
      * intros a b Ha Hb. apply IHb in Ha.
        apply elem_of_replicate in Hb as [-> _]. lia.
      * generalize (Z.to_nat (groupSize T G (Z.of_nat k))). intros n.
        induction n as [|n IHn]; cbn [replicate]; constructor; [exact IHn|].
        apply Forall_forall. intros b Hb.
        apply elem_of_replicate in Hb as [-> _]. lia.
    + intros v Hv. apply elem_of_app in Hv as [Hv|Hv].
      * apply IHb in Hv. lia.
      * apply elem_of_replicate in Hv as [-> _]. lia.
Qed.

Lemma StronglySorted_lookup_le (l : list Z) :
  StronglySorted Z.le l ->
  forall (i j : nat) a b,
    (i <= j)%nat -> l !! i = Some a -> l !! j = Some b -> a <= b.
Proof.
  induction 1 as [|c l Hs IH Hall]; intros i j a b Hij Ha Hb.
  - rewrite lookup_nil in Ha. discriminate.
  - destruct i as [|i], j as [|j]; cbn in Ha, Hb; try lia.
    + assert (a = b) by congruence. lia.
    + injection Ha as <-. rewrite Forall_forall in Hall.
      apply Hall. apply list_elem_of_lookup. exists j. exact Hb.
    + apply (IH i j); [lia|assumption|assumption].
Qed.

(** X11: in the array of [generateAssignments] the group ids never
    decrease with the index: every group is one unbroken run of items,
    the runs following each other in id order. *)
Theorem generateAssignments_groups_are_runs totalItems groupCount l :
  0 <= totalItems -> 1 <= groupCount ->
  generateAssignments totalItems groupCount = Some l ->
  forall (i j : nat) a b,
    (i <= j)%nat -> l !! i = Some a -> l !! j = Some b -> a <= b.
Proof.
  intros HT HG Hl. rewrite generateAssignments_balanced in Hl by lia.
  injection Hl as <-.
  destruct (balancedUpTo_sorted totalItems groupCount (Z.to_nat groupCount))
    as [Hs _].
  rewrite Z2Nat.id in Hs by lia.
  apply StronglySorted_lookup_le, Hs.
Qed.

Lemma generateAssignments_groups_are_runs_witness : 0 <= 1.
Proof.
  apply (generateAssignments_groups_are_runs 11 4
           [0; 0; 0; 1; 1; 1; 2; 2; 2; 3; 3] ltac:(lia) ltac:(lia)
           eq_refl 2%nat 3%nat 0 1); [lia | reflexivity | reflexivity].
Defined.

(** X12: the snake is a continuous path: two cells of the grid whose
    snake indices follow each other are neighbours, one above the other
    in the same column or side by side in the same row. *)
Theorem snake_path_is_continuous cabinetsWidth cabinetsHeight x0 y0 x1 y1 :
  0 <= x0 < cabinetsWidth -> 0 <= y0 < cabinetsHeight ->
  0 <= x1 < cabinetsWidth -> 0 <= y1 < cabinetsHeight ->
  snakeIndexOf cabinetsHeight x1 y1 = snakeIndexOf cabinetsHeight x0 y0 + 1 ->
  (x1 = x0 /\ (y1 = y0 + 1 \/ y1 = y0 - 1)) \/ (x1 = x0 + 1 /\ y1 = y0).
Proof.
  intros Hx0 Hy0 Hx1 Hy1. unfold snakeIndexOf.
  destruct (Z.eqb_spec (Z.rem x0 2) 0) as [E0|E0];
    destruct (Z.eqb_spec (Z.rem x1 2) 0) as [E1|E1]; intros E;
    rewrite Z.rem_mod_nonneg in E0, E1 by lia;
    (assert (x1 = x0 \/ x1 = x0 + 1) as Hc by nia);
    destruct Hc as [-> | ->]; Z.div_mod_to_equations; lia.
Qed.

Lemma snake_path_is_continuous_witness :
  (1 = 0 /\ (2 = 2 + 1 \/ 2 = 2 - 1)) \/ (1 = 0 + 1 /\ 2 = 2).
Proof.
  apply (snake_path_is_continuous 10 3 0 2 1 2); try lia. reflexivity.
Defined.

End DistributionEdges.

(** * The order of the cells and the borders between groups *)

Section GridOrder.
Local Open Scope Z_scope.

Lemma lookup_bind_rows {A B} (f : A -> list B) (n : nat) (l : list A) :
  (forall a, length (f a) = n) ->
  forall i j : nat, (j < n)%nat ->
    (l ≫= f) !! (i * n + j)%nat = l !! i ≫= (fun a => f a !! j).
Proof.
  intros Hlen. induction l as [|a l IH]; intros i j Hj.
  - rewrite lookup_nil. reflexivity.
  - rewrite bind_cons. destruct i as [|i].
    + cbn [Nat.mul Nat.add lookup list_lookup mbind option_bind].
      apply lookup_app_l. rewrite Hlen. exact Hj.
    + rewrite lookup_app_r by (rewrite Hlen; lia).
      rewrite Hlen.
      replace (S i * n + j - n)%nat with (i * n + j)%nat by lia.
      apply IH, Hj.
Qed.

Lemma bind_singleton_fmap {A B} (g : A -> B) (l : list A) :
  (a ← l; [g a]) = g <$> l.
Proof.
  induction l as [|a l IH]; [reflexivity|]. csimpl. rewrite IH. reflexivity.
Qed.

Lemma gridCells_rows W H pa ca :
  gridCells W H pa ca
  = y0 ← seqZ 0 H; (fun x0 => cellAt H pa ca x0 y0) <$> seqZ 0 W.
Proof.
  unfold gridCells. apply list_bind_ext; [|reflexivity]. intros y0.
  apply (bind_singleton_fmap (fun x0 => cellAt H pa ca x0 y0)).
Qed.

Lemma gridCells_at W H pa ca x0 y0 :
  0 <= x0 < W -> 0 <= y0 < H ->
  at_index (gridCells W H pa ca) (y0 * W + x0) = Some (cellAt H pa ca x0 y0).
Proof.
  intros Hx Hy. unfold at_index.
  destruct (Z.ltb_spec (y0 * W + x0) 0) as [|_]; [nia|].
  rewrite gridCells_rows.
  replace (Z.to_nat (y0 * W + x0))
    with (Z.to_nat y0 * Z.to_nat W + Z.to_nat x0)%nat by nia.
  rewrite (lookup_bind_rows _ (Z.to_nat W)).
  - rewrite lookup_seqZ_lt by lia. cbn [mbind option_bind].
    rewrite list_lookup_fmap, lookup_seqZ_lt by lia. cbn.
    rewrite !Z2Nat.id by lia. reflexivity.
  - intros y1. rewrite length_fmap, length_seqZ. reflexivity.
  - lia.
Qed.

Lemma length_gridCells W H pa ca :
  length (gridCells W H pa ca) = (Z.to_nat W * Z.to_nat H)%nat.
Proof.
  rewrite gridCells_rows.
  rewrite <- (length_seqZ 0 H). generalize (seqZ 0 H). intros ys.
  induction ys as [|y0 ys IH]; [cbn; lia|].
  rewrite bind_cons, length_app, IH, length_fmap, length_seqZ.
  cbn [length]. lia.
Qed.

(** X13: [gridData] lists its cells row by row: there are
    [cabinetsWidth * cabinetsHeight] of them and the cell of column [x0]
    and row [y0] is the entry [y0 * cabinetsWidth + x0] of [cells]. *)
Theorem gridCells_row_major cabinetsWidth cabinetsHeight
    portAssignments circuitAssignments x0 y0 :
  0 <= x0 < cabinetsWidth -> 0 <= y0 < cabinetsHeight ->
  length (gridCells cabinetsWidth cabinetsHeight
                    portAssignments circuitAssignments)
  = (Z.to_nat cabinetsWidth * Z.to_nat cabinetsHeight)%nat /\
  exists c,
    at_index (gridCells cabinetsWidth cabinetsHeight
                        portAssignments circuitAssignments)
             (y0 * cabinetsWidth + x0) = Some c /\
    x c = x0 /\ y c = y0 /\
    snakeIndex c = snakeIndexOf cabinetsHeight x0 y0.
Proof.
  intros Hx Hy. split; [apply length_gridCells|].
  eexists. split; [apply gridCells_at; assumption|].
  repeat split.
Qed.

Lemma gridCells_row_major_witness :
  exists c,
    at_index (gridCells 3 2 [] []) (1 * 3 + 2) = Some c /\
    x c = 2 /\ y c = 1 /\ snakeIndex c = snakeIndexOf 2 2 1.
Proof.
  apply (gridCells_row_major 3 2 [] [] 2 1); lia.
Defined.

Lemma neighbourOrEdge_inside viewMode data pa ca nx ny :
  0 <= nx < cabinetsWidth data -> 0 <= ny < cabinetsHeight data ->
  neighbourOrEdge viewMode data pa ca nx ny
  = shownId viewMode (cellAt (cabinetsHeight data) pa ca nx ny).
Proof.
  intros Hx Hy. unfold neighbourOrEdge.
  rewrite bool_decide_eq_true_2 by lia. reflexivity.
Qed.

Lemma getNeighborId_cellAt viewMode data pa ca x0 y0 dx dy :
  0 <= x0 < cabinetsWidth data -> 0 <= y0 < cabinetsHeight data ->
  getNeighborId viewMode data
    (gridCells (cabinetsWidth data) (cabinetsHeight data) pa ca)
    (cellAt (cabinetsHeight data) pa ca x0 y0) dx dy
  = Some (neighbourOrEdge viewMode data pa ca (x0 + dx) (y0 + dy)).
Proof.
  intros Hx Hy. unfold getNeighborId, neighbourOrEdge.
  cbn [x y cellAt].
  destruct (Z.ltb_spec (x0 + dx) 0);
    destruct (Z.leb_spec (cabinetsWidth data) (x0 + dx));
    destruct (Z.ltb_spec (y0 + dy) 0);
    destruct (Z.leb_spec (cabinetsHeight data) (y0 + dy));
    cbn [orb];
    try (rewrite bool_decide_eq_false_2 by lia; reflexivity).
  rewrite bool_decide_eq_true_2 by lia.
  rewrite gridCells_at by lia. reflexivity.
Qed.

(** X14: on the cells of [gridData], [getNeighborId] never reads a
    missing cell: for a neighbour inside the grid it returns the id shown
    on the cell at that position, and outside the grid it returns -2. *)
Theorem getNeighborId_reads_neighbour viewMode data pa ca c dx dy :
  c ∈ gridCells (cabinetsWidth data) (cabinetsHeight data) pa ca ->
  (0 <= x c + dx < cabinetsWidth data /\
   0 <= y c + dy < cabinetsHeight data ->
   getNeighborId viewMode data
     (gridCells (cabinetsWidth data) (cabinetsHeight data) pa ca) c dx dy
   = Some (shownId viewMode
             (cellAt (cabinetsHeight data) pa ca (x c + dx) (y c + dy)))) /\
  (~ (0 <= x c + dx < cabinetsWidth data /\
      0 <= y c + dy < cabinetsHeight data) ->
   getNeighborId viewMode data
     (gridCells (cabinetsWidth data) (cabinetsHeight data) pa ca) c dx dy
   = Some (Some (-2))).
Proof.
  intros Hc. apply elem_of_gridCells in Hc as (x0 & y0 & Hx & Hy & ->).
  cbn [x y].
  pose proof (getNeighborId_cellAt viewMode data pa ca x0 y0 dx dy Hx Hy)
    as H.
  unfold cellAt in H at 1. rewrite H. unfold neighbourOrEdge.
  split; intros Hin.
  - rewrite bool_decide_eq_true_2 by exact Hin. reflexivity.
  - rewrite bool_decide_eq_false_2 by exact Hin. reflexivity.
Qed.

Lemma getNeighborId_reads_neighbour_witness :
  getNeighborId ViewMode.data scenarioA
    (gridCells 10 3 [0; 0; 0; 1; 1; 1] [])
    (cellAt 3 [0; 0; 0; 1; 1; 1] [] 0 0) 1 0
  = Some (Some 1) /\
  getNeighborId ViewMode.data scenarioA
    (gridCells 10 3 [0; 0; 0; 1; 1; 1] [])
    (cellAt 3 [0; 0; 0; 1; 1; 1] [] 0 0) (-1) 0
  = Some (Some (-2)).
Proof.
  assert (cellAt 3 [0; 0; 0; 1; 1; 1] [] 0 0
          ∈ gridCells (cabinetsWidth scenarioA) (cabinetsHeight scenarioA)
                      [0; 0; 0; 1; 1; 1] []) as Hc
    by (apply elem_of_gridCells; exists 0, 0; cbn; repeat split; lia).
  split.
  - destruct (getNeighborId_reads_neighbour ViewMode.data scenarioA
                [0; 0; 0; 1; 1; 1] [] _ 1 0 Hc) as [H _].
    apply H. cbn. lia.
  - destruct (getNeighborId_reads_neighbour ViewMode.data scenarioA
                [0; 0; 0; 1; 1; 1] [] _ (-1) 0 Hc) as [_ H].
    apply H. cbn. lia.
Defined.

Lemma boundaryChecks_cellAt viewMode data pa ca x0 y0 :
  0 <= x0 < cabinetsWidth data -> 0 <= y0 < cabinetsHeight data ->
  let shown := neighbourOrEdge viewMode data pa ca in
  let current :=
    shownId viewMode (cellAt (cabinetsHeight data) pa ca x0 y0) in
  boundaryChecks viewMode data
    (gridCells (cabinetsWidth data) (cabinetsHeight data) pa ca)
    (cellAt (cabinetsHeight data) pa ca x0 y0)
  = Some {| isTopEdge := bool_decide (shown x0 (y0 - 1) <> current);
            isBottomEdge := bool_decide (shown x0 (y0 + 1) <> current);
            isLeftEdge := bool_decide (shown (x0 - 1) y0 <> current);
            isRightEdge := bool_decide (shown (x0 + 1) y0 <> current) |}.
Proof.
  intros Hx Hy shown current. unfold boundaryChecks.
  rewrite !getNeighborId_cellAt by assumption.
  rewrite !Z.add_0_r. reflexivity.
Qed.

(** X15: the boundary checks of two adjacent cells agree on the border
    they share: the right edge of a cell is a group boundary exactly when
    the left edge of the cell to its right is one, and likewise for the
    bottom edge and the top edge of the cell below. *)
Theorem boundaryChecks_agree_across viewMode data pa ca x0 y0 :
  0 <= x0 < cabinetsWidth data -> 0 <= y0 < cabinetsHeight data ->
  exists e,
    boundaryChecks viewMode data
      (gridCells (cabinetsWidth data) (cabinetsHeight data) pa ca)
      (cellAt (cabinetsHeight data) pa ca x0 y0) = Some e /\
    (x0 + 1 < cabinetsWidth data ->
     exists e',
       boundaryChecks viewMode data
         (gridCells (cabinetsWidth data) (cabinetsHeight data) pa ca)
         (cellAt (cabinetsHeight data) pa ca (x0 + 1) y0) = Some e' /\
       isRightEdge e = isLeftEdge e') /\
    (y0 + 1 < cabinetsHeight data ->
     exists e',
       boundaryChecks viewMode data
         (gridCells (cabinetsWidth data) (cabinetsHeight data) pa ca)
         (cellAt (cabinetsHeight data) pa ca x0 (y0 + 1)) = Some e' /\
       isBottomEdge e = isTopEdge e').
Proof.
  intros Hx Hy. eexists. split; [apply boundaryChecks_cellAt; assumption|].
  cbn [isRightEdge isBottomEdge]. split; intros Hnext.
  - eexists. split; [apply boundaryChecks_cellAt; lia|].
    cbn [isLeftEdge]. replace (x0 + 1 - 1) with x0 by lia.
    rewrite !neighbourOrEdge_inside by lia.
    apply bool_decide_ext. split; intros H E; apply H; symmetry; exact E.
  - eexists. split; [apply boundaryChecks_cellAt; lia|].
    cbn [isTopEdge]. replace (y0 + 1 - 1) with y0 by lia.
    rewrite !neighbourOrEdge_inside by lia.
    apply bool_decide_ext. split; intros H E; apply H; symmetry; exact E.
Qed.

Lemma boundaryChecks_agree_across_witness :
  exists e e',
    boundaryChecks ViewMode.power scenarioA
      (gridCells 10 3 [] []) (cellAt 3 [] [] 0 0) = Some e /\
    boundaryChecks ViewMode.power scenarioA
      (gridCells 10 3 [] []) (cellAt 3 [] [] 1 0) = Some e' /\
    isRightEdge e = isLeftEdge e'.
Proof.
  destruct (boundaryChecks_agree_across ViewMode.power scenarioA [] [] 0 0)
    as (e & He & Hright & _); [cbn; lia | cbn; lia |].
  destruct Hright as (e' & He' & Hsame); [cbn; lia|].
  exists e, e'. auto.
Defined.

End GridOrder.

(** * The breakdown by port and by circuit *)

Section BreakdownCounts.
Local Open Scope Z_scope.

Lemma fold_left_pair {A B C} (f : A -> C -> A) (g : B -> C -> B)
    (l : list C) : forall a b,
  fold_left (fun '(a, b) c => (f a c, g b c)) l (a, b)
  = (fold_left f l a, fold_left g l b).
Proof. induction l as [|c l IH]; intros a b; [reflexivity|]. cbn. apply IH. Qed.

Lemma fold_left_fmap {A B C} (f : A -> B -> A) (g : C -> B) (l : list C) :
  forall a, fold_left (fun a c => f a (g c)) l a = fold_left f (g <$> l) a.
Proof. induction l as [|c l IH]; intros a; [reflexivity|]. cbn. apply IH. Qed.

Lemma counters_ext c c' n :
  (forall i, 0 <= i < n -> c i = c' i) -> counters c n = counters c' n.
Proof.
  intros H. unfold counters. apply list_fmap_ext.
  intros k i Hi. apply lookup_seqZ in Hi as [-> Hk]. rewrite H by lia.
  reflexivity.
Qed.

Lemma newCounters_counters m : newCounters m = counters (fun _ => 0) (m + 1).
Proof. reflexivity. Qed.

Lemma countUp_counters c n o :
  countUp (counters c n) o
  = counters (fun i => c i + if decide (o = Some i) then 1 else 0) n.
Proof.
  unfold countUp. destruct o as [j|].
  - destruct (Z.ltb_spec j 0) as [Hneg|Hpos].
    + apply counters_ext. intros i Hi.
      destruct (decide (Some j = Some i)) as [[= ->]|]; lia.
    + apply list_eq. intros k. unfold counters.
      destruct (decide (Z.to_nat j = k)) as [<-|Hne].
      * rewrite list_lookup_alter_eq, !list_lookup_fmap.
        destruct (seqZ 0 n !! Z.to_nat j) as [i|] eqn:E; [|reflexivity].
        apply lookup_seqZ in E as [-> Hk]. cbn.
        rewrite Z.add_0_l, Z2Nat.id by lia.
        destruct (decide (Some j = Some j)); [reflexivity|congruence].
      * rewrite list_lookup_alter_ne, !list_lookup_fmap by exact Hne.
        destruct (seqZ 0 n !! k) as [i|] eqn:E; [|reflexivity].
        apply lookup_seqZ in E as [-> Hk]. cbn. rewrite Z.add_0_l.
        destruct (decide (Some j = Some (Z.of_nat k))) as [[= ->]|];
          [lia|]. rewrite Z.add_0_r. reflexivity.
  - apply counters_ext. intros i _.
    destruct (decide (None = Some i)); [discriminate|lia].
Qed.

Lemma occurrencesOf_cons g o ids :
  occurrencesOf g (o :: ids)
  = (if decide (o = Some g) then 1 else 0) + occurrencesOf g ids.
Proof.
  unfold occurrencesOf. rewrite filter_cons.
  destruct (decide (o = Some g)); cbn [length]; lia.
Qed.

Lemma fold_countUp ids : forall c n,
  fold_left countUp ids (counters c n)
  = counters (fun i => c i + occurrencesOf i ids) n.
Proof.
  induction ids as [|o ids IH]; intros c n; cbn [fold_left].
  - apply counters_ext. intros i _. unfold occurrencesOf. cbn. lia.
  - rewrite countUp_counters, IH. apply counters_ext. intros i _.
    rewrite occurrencesOf_cons. lia.
Qed.

Lemma fold_raiseMax ids : forall m,
  m <= fold_left raiseMax ids m /\
  forall j, Some j ∈ ids -> j <= fold_left raiseMax ids m.
Proof.
  induction ids as [|o ids IH]; intros m; cbn [fold_left].
  - split; [lia|]. intros j Hj. inversion Hj.
  - destruct (IH (raiseMax m o)) as [Hm Hin].
    assert (m <= raiseMax m o) as Hle.
    { unfold raiseMax. destruct o as [i|]; [|lia].
      destruct (Z.ltb_spec m i); lia. }
    split; [lia|]. intros j Hj. apply elem_of_cons in Hj as [<-|Hj].
    + cbn [raiseMax] in Hm |- *. destruct (Z.ltb_spec m j); lia.
    + apply Hin, Hj.
Qed.

Lemma occurrencesOf_Permutation g ids ids' :
  ids ≡ₚ ids' -> occurrencesOf g ids = occurrencesOf g ids'.
Proof. intros H. unfold occurrencesOf. rewrite H. reflexivity. Qed.

Lemma occurrencesOf_Some g (l : list Z) :
  occurrencesOf g (Some <$> l) = occurrences g l.
Proof.
  unfold occurrences. induction l as [|a l IH].
  - reflexivity.
  - rewrite fmap_cons, occurrencesOf_cons, IH. cbn [count_occ].
    destruct (Z.eq_dec a g) as [->|Hne].
    + destruct (decide (Some g = Some g)); [lia|congruence].
    + destruct (decide (Some a = Some g)) as [[= ->]|]; [congruence|lia].
Qed.

Lemma occurrencesOf_pos_elem_of g ids :
  0 < occurrencesOf g ids -> Some g ∈ ids.
Proof.
  unfold occurrencesOf. intros H.
  destruct (filter (fun o => o = Some g) ids) as [|o l] eqn:E;
    [cbn in H; lia|].
  assert (o ∈ filter (fun o => o = Some g) ids) as Ho by (rewrite E; left).
  apply list_elem_of_filter in Ho as [-> Ho]. exact Ho.
Qed.



Lemma filter_all {A} (f : A -> bool) (l : list A) :
  Forall (fun a => f a = true) l -> List.filter f l = l.
Proof.
  induction 1 as [|a l Ha _ IH]; [reflexivity|].
  cbn [List.filter]. rewrite Ha, IH. reflexivity.
Qed.

Lemma filter_none {A} (f : A -> bool) (l : list A) :
  Forall (fun a => f a = false) l -> List.filter f l = [].
Proof.
  induction 1 as [|a l Ha _ IH]; [reflexivity|].
  cbn [List.filter]. rewrite Ha, IH. reflexivity.
Qed.

Lemma filter_counters c n m :
  0 <= m <= n ->
  (forall i, 0 <= i < m -> 0 < c i) ->
  (forall i, m <= i < n -> c i <= 0) ->
  List.filter (fun p => 0 <? Counter.count p) (counters c n) = counters c m.
Proof.
  intros Hm Hpos Hzero. unfold counters.
  replace n with (m + (n - m)) by lia.
  rewrite seqZ_app, fmap_app, List.filter_app by lia.
  rewrite filter_all, filter_none; [apply app_nil_r| |].
  - apply Forall_fmap, Forall_forall. intros i Hi.
    apply elem_of_seqZ in Hi. cbn. apply Z.ltb_ge, Hzero. lia.
  - apply Forall_fmap, Forall_forall. intros i Hi.
    apply elem_of_seqZ in Hi. cbn. apply Z.ltb_lt, Hpos. lia.
Qed.

Lemma mapWith_Some {A B} (q : Q) (f : Q -> A -> B) (l : list A) :
  mapWith (Some q) f l = Some (List.map (f q) l).
Proof. destruct l; reflexivity. Qed.

Lemma portId_gridCells W H pa ca :
  portId <$> gridCells W H pa ca
  = at_index pa <$> (snakeIndex <$> gridCells W H pa ca).
Proof.
  rewrite <- list_fmap_compose. apply list_fmap_ext. intros k c Hc.
  apply list_elem_of_lookup_2, elem_of_gridCells in Hc
    as (x0 & y0 & _ & _ & ->). reflexivity.
Qed.

Lemma circuitId_gridCells W H pa ca :
  circuitId <$> gridCells W H pa ca
  = at_index ca <$> (snakeIndex <$> gridCells W H pa ca).
Proof.
  rewrite <- list_fmap_compose. apply list_fmap_ext. intros k c Hc.
  apply list_elem_of_lookup_2, elem_of_gridCells in Hc
    as (x0 & y0 & _ & _ & ->). reflexivity.
Qed.

Lemma snakeIndex_gridCells_Permutation W H pa ca :
  1 <= H -> snakeIndex <$> gridCells W H pa ca ≡ₚ seqZ 0 (W * H).
Proof.
  intros HH. apply NoDup_Permutation.
  - apply NoDup_snakeIndex_gridCells.
  - apply NoDup_seqZ.
  - intros k. rewrite elem_of_seqZ, list_elem_of_fmap. split.
    + intros (c & -> & Hc).
      apply elem_of_gridCells in Hc as (x0 & y0 & Hx & Hy & ->).
      cbn [snakeIndex].
      pose proof (snakeIndexOf_range _ _ x0 y0 Hx Hy). lia.
    + intros Hk.
      destruct (snakeIndexOf_surj W H k HH ltac:(lia))
        as (x0 & y0 & Hx & Hy & <-).
      eexists. split; [|apply elem_of_gridCells; exists x0, y0; eauto].
      reflexivity.
Qed.

Lemma at_index_seqZ (l : list Z) :
  at_index l <$> seqZ 0 (Z.of_nat (length l)) = Some <$> l.
Proof.
  apply list_eq. intros k. rewrite !list_lookup_fmap.
  destruct (l !! k) as [a|] eqn:E; cbn.
  - pose proof (lookup_lt_Some _ _ _ E) as Hk.
    rewrite lookup_seqZ_lt by lia. cbn. unfold at_index.
    destruct (Z.ltb_spec (0 + Z.of_nat k) 0); [lia|].
    rewrite Z.add_0_l, Nat2Z.id, E. reflexivity.
  - apply lookup_ge_None in E. rewrite lookup_seqZ_ge by lia. reflexivity.
Qed.

Lemma ids_of_cells W H pa ca :
  1 <= H -> Z.of_nat (length pa) = W * H -> Z.of_nat (length ca) = W * H ->
  portId <$> gridCells W H pa ca ≡ₚ Some <$> pa /\
  circuitId <$> gridCells W H pa ca ≡ₚ Some <$> ca.
Proof.
  intros HH Hpa Hca.
  rewrite portId_gridCells, circuitId_gridCells.
  rewrite (snakeIndex_gridCells_Permutation W H pa ca HH).
  rewrite <- Hpa at 1. rewrite <- Hca. rewrite !at_index_seqZ.
  split; reflexivity.
Qed.

Lemma groupSize_pos_iff T G g :
  1 <= T -> 1 <= G -> 0 <= g < G ->
  (0 < groupSize T G g <-> g < Z.min G T).
Proof.
  intros HT HG Hg. unfold groupSize.
  destruct (Z.le_gt_cases G T) as [Hle|Hgt].
  - assert (1 <= T / G) by (apply Z.div_le_lower_bound; lia).
    destruct (g <? T mod G); lia.
  - rewrite Z.div_small, Z.mod_small by lia.
    destruct (Z.ltb_spec g T); lia.
Qed.

(** The counters after the counting loop, filtered to the active ones,
    for the ids of an array made by [generateAssignments]. *)
Lemma active_counters T G ids :
  1 <= T -> 1 <= G ->
  ids ≡ₚ Some <$> balancedUpTo T G G ->
  List.filter (fun p => 0 <? Counter.count p)
    (fold_left countUp ids (newCounters (fold_left raiseMax ids 0)))
  = activeGroups T G.
Proof.
  intros HT HG Hids.
  rewrite newCounters_counters, fold_countUp.
  set (top := fold_left raiseMax ids 0).
  assert (forall i, occurrencesOf i ids = occurrences i (balancedUpTo T G G))
    as Hocc.
  { intros i. rewrite (occurrencesOf_Permutation _ _ _ Hids).
    apply occurrencesOf_Some. }
  assert (forall i, 0 <= i < G ->
            occurrencesOf i ids = groupSize T G i) as Hshare.
  { intros i Hi. rewrite Hocc. apply occurrences_balanced; lia. }
  assert (Z.min G T - 1 <= top) as Htop.
  { apply (fold_raiseMax ids 0), occurrencesOf_pos_elem_of.
    rewrite Hshare by lia. apply groupSize_pos_iff; lia. }
  unfold activeGroups.
  rewrite (filter_counters _ (top + 1) (Z.min G T)).
  - apply counters_ext. intros i Hi. rewrite Hshare by lia. lia.
  - lia.
  - intros i Hi. rewrite Hshare by lia. rewrite Z.add_0_l.
    apply groupSize_pos_iff; lia.
  - intros i Hi. rewrite Z.add_0_l.
    destruct (Z.lt_ge_cases i G) as [Hlt|Hge].
    + rewrite Hshare by lia.
      pose proof (groupSize_pos_iff T G i HT HG ltac:(lia)). lia.
    + rewrite Hocc. unfold occurrences.
      rewrite (proj1 (count_occ_not_In Z.eq_dec _ i)); [lia|].
      intros Hin. apply list_elem_of_In, elem_of_balanced in Hin. lia.
Qed.


Lemma breakdown_closed_form data :
  totalCabinets data = cabinetsWidth data * cabinetsHeight data ->
  1 <= cabinetsHeight data ->
  1 <= totalCabinets data -> 1 <= lanPorts data -> 1 <= circuits220v data ->
  exists cells,
    gridData data = Some cells /\
    breakdown cells data
    = Some {|
        Breakdown.ports :=
          portEntry (inject_Z (totalPixels data)
                     / inject_Z (totalCabinets data))
            <$> activeGroups (totalCabinets data) (lanPorts data);
        Breakdown.circuits :=
          circuitEntry (inject_Z (peakPowerWatts data)
                        / inject_Z (totalCabinets data))
            <$> activeGroups (totalCabinets data) (circuits220v data);
        Breakdown.mccbs :=
          mccbGroups
            (circuitEntry (inject_Z (peakPowerWatts data)
                          / inject_Z (totalCabinets data))
               <$> activeGroups (totalCabinets data) (circuits220v data))
      |}.
Proof.
  intros Hgrid HH HT HL HC.
  destruct (generateAssignments_shape (totalCabinets data) (lanPorts data))
    as (pa & Hpa & Hlpa & _); [lia|lia|].
  destruct (generateAssignments_shape (totalCabinets data)
              (circuits220v data)) as (ca & Hca & Hlca & _); [lia|lia|].
  pose proof Hpa as Hpa'. pose proof Hca as Hca'.
  rewrite generateAssignments_balanced in Hpa', Hca' by lia.
  injection Hpa' as Hpa'. injection Hca' as Hca'. subst pa ca.
  eexists. split; [unfold gridData; rewrite Hpa, Hca; reflexivity|].
  destruct (ids_of_cells (cabinetsWidth data) (cabinetsHeight data)
              (balancedUpTo (totalCabinets data) (lanPorts data)
                            (lanPorts data))
              (balancedUpTo (totalCabinets data) (circuits220v data)
                            (circuits220v data)))
    as [Hpids Hcids]; [lia|lia|lia|].
  unfold breakdown.
  rewrite (fold_left_pair (fun m c => raiseMax m (portId c))
                          (fun m c => raiseMax m (circuitId c))).
  rewrite (fold_left_pair (fun ps c => countUp ps (portId c))
                          (fun cs c => countUp cs (circuitId c))).
  rewrite (fold_left_fmap raiseMax portId),
    (fold_left_fmap raiseMax circuitId),
    (fold_left_fmap countUp portId), (fold_left_fmap countUp circuitId).
  rewrite (active_counters _ _ _ HT HL Hpids).
  rewrite (active_counters _ _ _ HT HC Hcids).
  rewrite !div_Some by (apply inject_Z_neq_0; lia).
  rewrite !mapWith_Some. reflexivity.
Qed.


Lemma activeGroups_ids T G :
  Counter.id <$> activeGroups T G = seqZ 0 (Z.min G T).
Proof.
  unfold activeGroups, counters. rewrite <- list_fmap_compose.
  apply list_fmap_id.
Qed.

Lemma activeGroups_counts T G :
  Counter.count <$> activeGroups T G
  = groupSize T G <$> seqZ 0 (Z.min G T).
Proof.
  unfold activeGroups, counters. rewrite <- list_fmap_compose. reflexivity.
Qed.

Lemma activeGroups_total T G :
  1 <= T -> 1 <= G ->
  foldr Z.add 0 (Counter.count <$> activeGroups T G) = T.
Proof.
  intros HT HG. rewrite activeGroups_counts.
  pose proof (sum_groupSize T G (Z.to_nat (Z.min G T))) as H.
  rewrite Z2Nat.id in H by lia. rewrite H.
  pose proof (Z.mod_pos_bound T G ltac:(lia)) as Hm.
  destruct (Z.le_gt_cases G T) as [Hle|Hgt].
  - rewrite Z.min_l by lia. rewrite assignedBefore_all by lia. lia.
  - rewrite Z.min_r by lia. unfold assignedBefore.
    rewrite Z.div_small, Z.mod_small by lia. lia.
Qed.

(** X16: for a result record of a grid (the hypotheses of C4), the
    counters that [breakdown] fills from the cells list exactly the
    groups that received a cabinet, in id order, each with the share
    that [generateAssignments] gave it: the snake order moves cabinets
    between cells but not between groups.  The counts of the ports, and
    those of the circuits, add up to [totalCabinets]. *)
Theorem breakdown_counts_are_the_shares data :
  totalCabinets data = cabinetsWidth data * cabinetsHeight data ->
  1 <= cabinetsHeight data ->
  1 <= totalCabinets data -> 1 <= lanPorts data -> 1 <= circuits220v data ->
  exists cells b,
    gridData data = Some cells /\ breakdown cells data = Some b /\
    Port.id <$> Breakdown.ports b
      = seqZ 0 (Z.min (lanPorts data) (totalCabinets data)) /\
    Port.count <$> Breakdown.ports b
      = groupSize (totalCabinets data) (lanPorts data)
          <$> seqZ 0 (Z.min (lanPorts data) (totalCabinets data)) /\
    Circuit.id <$> Breakdown.circuits b
      = seqZ 0 (Z.min (circuits220v data) (totalCabinets data)) /\
    Circuit.count <$> Breakdown.circuits b
      = groupSize (totalCabinets data) (circuits220v data)
          <$> seqZ 0 (Z.min (circuits220v data) (totalCabinets data)) /\
    foldr Z.add 0 (Port.count <$> Breakdown.ports b) = totalCabinets data /\
    foldr Z.add 0 (Circuit.count <$> Breakdown.circuits b)
      = totalCabinets data.
Proof.
  intros Hgrid HH HT HL HC.
  destruct (breakdown_closed_form data Hgrid HH HT HL HC)
    as (cells & Hcells & Hb).
  eexists cells, _. split; [exact Hcells|]. split; [exact Hb|].
  cbn [Breakdown.ports Breakdown.circuits].
  rewrite <- !list_fmap_compose.
  change (Port.id ∘ portEntry _) with Counter.id.
  change (Port.count ∘ portEntry _) with Counter.count.
  change (Circuit.id ∘ circuitEntry _) with Counter.id.
  change (Circuit.count ∘ circuitEntry _) with Counter.count.
  rewrite !activeGroups_ids, !activeGroups_counts.
  repeat split.
  - rewrite <- activeGroups_counts. apply activeGroups_total; lia.
  - rewrite <- activeGroups_counts. apply activeGroups_total; lia.
Qed.

Lemma sum_watts (q : Q) (cs : list Counter.t) :
  (sumQ (Circuit.watts <$> (circuitEntry q <$> cs))
   == inject_Z (foldr Z.add 0%Z (Counter.count <$> cs)) * q)%Q.
Proof.
  induction cs as [|c cs IH]; unfold sumQ in *; cbn [fmap list_fmap foldr].
  - ring.
  - rewrite IH. cbn [Circuit.watts circuitEntry]. rewrite inject_Z_plus. ring.
Qed.

Lemma sum_amps (q : Q) (cs : list Counter.t) :
  (sumQ (Circuit.amps <$> (circuitEntry q <$> cs))
   == inject_Z (foldr Z.add 0%Z (Counter.count <$> cs)) * q / 220)%Q.
Proof.
  induction cs as [|c cs IH]; unfold sumQ in *; cbn [fmap list_fmap foldr].
  - field.
  - rewrite IH. cbn [Circuit.amps circuitEntry]. rewrite inject_Z_plus. field.
Qed.

(** X17: for positive dimensions and a supported pitch, every active
    circuit of [breakdown] carries its count times the peak watts of a
    panel, at no more than the 16 A of the safe load, and the watts of
    the circuits add up to [peakPowerWatts]: the distribution loses no
    load. *)
Theorem breakdown_conserves_power w h p env r :
  (0 < w)%Q -> (0 < h)%Q -> In p PIXEL_PITCHES ->
  calculateRequirements w h p env = Some r ->
  exists cells b,
    gridData r = Some cells /\ breakdown cells r = Some b /\
    (forall c, c ∈ Breakdown.circuits b ->
       (Circuit.watts c
        == inject_Z (Circuit.count c
                     * peakWattsPerPanel (POWER_SPECS env)))%Q /\
       (Circuit.amps c <= 20 * 0.8)%Q) /\
    (sumQ (Circuit.watts <$> Breakdown.circuits b)
     == inject_Z (peakPowerWatts r))%Q.
Proof.
  intros Hw Hh _ Hr.
  destruct (requirements_describe_grid w h p env r Hw Hh Hr)
    as (Hgrid & _ & HH & HT & HL & HC).
  destruct (requirements_have_room w h p env r Hr) as [_ Hcap].
  pose proof (calculateRequirements_fields _ _ _ _ _ Hr)
    as (_ & _ & _ & _ & _ & _ & _ & _ & _ & _ & Hpk & _).
  destruct (breakdown_closed_form r Hgrid HH HT HL HC)
    as (cells & Hcells & Hb).
  eexists cells, _. split; [exact Hcells|]. split; [exact Hb|].
  cbn [Breakdown.circuits].
  assert (~ inject_Z (totalCabinets r) == 0)%Q as Hnz
    by (apply inject_Z_neq_0; lia).
  assert (inject_Z (peakPowerWatts r) / inject_Z (totalCabinets r)
          == inject_Z (peakWattsPerPanel (POWER_SPECS env)))%Q as Hq.
  { rewrite Hpk, inject_Z_mult. field. exact Hnz. }
  split.
  - intros c Hc. apply list_elem_of_fmap in Hc as (cnt & -> & Hcnt).
    unfold activeGroups, counters in Hcnt.
    apply list_elem_of_fmap in Hcnt as (g & -> & Hg).
    apply elem_of_seqZ in Hg.
    cbn [Circuit.watts Circuit.amps Circuit.count circuitEntry
         Counter.count].
    assert (groupSize (totalCabinets r) (circuits220v r) g
            <= effectiveCabinetsPerCircuit env) as Hle.
    { apply groupSize_within_capacity;
        first [lia | apply effectiveCabinetsPerCircuit_pos]. }
    rewrite Hq. split; [rewrite inject_Z_mult; reflexivity|].
    eapply Qle_trans; [|apply (circuit_budget env)].
    unfold Qdiv. rewrite <- Qmult_assoc.
    apply Qmult_le_compat_r.
    + rewrite <- Zle_Qle. exact Hle.
    + destruct env; vm_compute; discriminate.
  - rewrite sum_watts, activeGroups_total by lia.
    rewrite Hpk, inject_Z_mult. field. exact Hnz.
Qed.

(** X18: for positive dimensions and a supported pitch, [gridData] and
    [breakdown] succeed on the result of [calculateRequirements]; every
    one of its [lanPorts] ports and [circuits220v] circuits is active,
    and the circuits fill ceil(circuits220v / 6) distribution blocks. *)
Theorem breakdown_of_requirements w h p env r :
  (0 < w)%Q -> (0 < h)%Q -> In p PIXEL_PITCHES ->
  calculateRequirements w h p env = Some r ->
  exists cells b,
    gridData r = Some cells /\ breakdown cells r = Some b /\
    Z.of_nat (length (Breakdown.ports b)) = lanPorts r /\
    Z.of_nat (length (Breakdown.circuits b)) = circuits220v r /\
    length (Breakdown.mccbs b)
      = ((Z.to_nat (circuits220v r) + 5) / 6)%nat.
Proof.
  intros Hw Hh _ Hr.
  destruct (requirements_describe_grid w h p env r Hw Hh Hr)
    as (Hgrid & _ & HH & HT & HL & HC).
  pose proof (effectiveCabinetsPerPort_pos p) as He.
  pose proof (effectiveCabinetsPerCircuit_pos env) as Hec.
  pose proof (calculateRequirements_fields _ _ _ _ _ Hr)
    as (_ & _ & _ & _ & _ & _ & _ & _ & _ & Hlp & _ & _ & _ & Hcp & _).
  pose proof (Math_ceil_div_bounds (totalCabinets r) _ He) as [Hl _].
  pose proof (Math_ceil_div_bounds (totalCabinets r) _ Hec) as [Hc _].
  cbv zeta in Hl, Hc. rewrite <- Hlp in Hl. rewrite <- Hcp in Hc.
  assert (lanPorts r <= totalCabinets r) as HLT by nia.
  assert (circuits220v r <= totalCabinets r) as HCT by nia.
  destruct (breakdown_closed_form r Hgrid HH HT HL HC)
    as (cells & Hcells & Hb).
  eexists cells, _. split; [exact Hcells|]. split; [exact Hb|].
  cbn [Breakdown.ports Breakdown.circuits Breakdown.mccbs].
  assert (forall G, 1 <= G <= totalCabinets r ->
            Z.of_nat (length (activeGroups (totalCabinets r) G)) = G)
    as Hlen.
  { intros G HG. unfold activeGroups, counters.
    rewrite length_fmap, length_seqZ. lia. }
  rewrite !length_fmap, !Hlen by lia.
  split; [reflexivity|]. split; [reflexivity|].
  rewrite mccbGroups_chunks_eq, length_fmap, length_seq, length_fmap.
  unfold chunkCount, CIRCUITS_PER_MCCB.
  rewrite <- (Hlen (circuits220v r)) at 2 by lia.
  rewrite Nat2Z.id. reflexivity.
Qed.

Lemma breakdown_counts_are_the_shares_witness :
  exists cells b,
    gridData scenarioA = Some cells /\ breakdown cells scenarioA = Some b /\
    Port.id <$> Breakdown.ports b = seqZ 0 (Z.min 5 30) /\
    foldr Z.add 0 (Port.count <$> Breakdown.ports b) = 30.
Proof.
  destruct (breakdown_counts_are_the_shares scenarioA)
    as (cells & b & Hc & Hb & Hids & _ & _ & _ & Hsum & _);
    [reflexivity | cbn; lia | cbn; lia | cbn; lia | cbn; lia |].
  exists cells, b. auto.
Defined.

Lemma breakdown_conserves_power_witness :
  exists r cells b,
    calculateRequirements 5000 3000 2.5 indoor = Some r /\
    gridData r = Some cells /\ breakdown cells r = Some b /\
    (sumQ (Circuit.watts <$> Breakdown.circuits b)
     == inject_Z (peakPowerWatts r))%Q.
Proof.
  eexists.
  destruct (breakdown_conserves_power 5000 3000 2.5 indoor _
              eq_refl eq_refl ltac:(simpl; tauto) eq_refl)
    as (cells & b & Hc & Hb & _ & Hsum).
  exists cells, b. split; [vm_compute; reflexivity|]. auto.
Defined.

Lemma breakdown_of_requirements_witness :
  exists r cells b,
    calculateRequirements 5000 3000 2.5 indoor = Some r /\
    gridData r = Some cells /\ breakdown cells r = Some b /\
    Z.of_nat (length (Breakdown.ports b)) = lanPorts r /\
    Z.of_nat (length (Breakdown.circuits b)) = circuits220v r.
Proof.
  eexists.
  destruct (breakdown_of_requirements 5000 3000 2.5 indoor _
              eq_refl eq_refl ltac:(simpl; tauto) eq_refl)
    as (cells & b & Hc & Hb & Hp & Hci & _).
  exists cells, b. split; [vm_compute; reflexivity|]. auto.
Defined.

End BreakdownCounts.

(** * Distribution blocks, zoom and scale *)

Section Blocks.

(** X19: the circuits fill ceil(n / 6) distribution blocks; there is no
    block exactly when there is no circuit. *)
Theorem mccbGroups_count (activeCircuits : list Circuit.t) :
  length (mccbGroups activeCircuits)
  = ((length activeCircuits + 5) / 6)%nat /\
  (mccbGroups activeCircuits = [] <-> activeCircuits = []).
Proof.
  assert (length (mccbGroups activeCircuits)
          = ((length activeCircuits + 5) / 6)%nat) as Hlen.
  { rewrite mccbGroups_chunks_eq, length_fmap, length_seq. reflexivity. }
  split; [exact Hlen|]. split.
  - intros E. rewrite E in Hlen. cbn [length] in Hlen.
    destruct activeCircuits as [|c cs]; [reflexivity|].
    exfalso. symmetry in Hlen. apply Nat.div_small_iff in Hlen; [|lia].
    cbn [length] in Hlen. lia.
  - intros ->. reflexivity.
Qed.

(** X20: the breaker size of every distribution block is one of the ten
    standard MCCB sizes, whatever the load of the block. *)
Theorem mccb_size_is_standard (activeCircuits : list Circuit.t) g :
  g ∈ mccbGroups activeCircuits -> Mccb.size g ∈ standardSizes.
Proof.
  intros Hg. apply list_elem_of_lookup in Hg as [k Hk].
  apply mccbGroups_lookup in Hk as [_ ->].
  rewrite mccbAt_size. apply or_else_elem_of.
  - intros s Hs. apply find_elem_of in Hs. exact Hs.
  - unfold standardSizes. rewrite !elem_of_cons. tauto.
Qed.

Lemma mccb_size_is_standard_witness :
  Mccb.size (mccbAt threeCircuits 0) ∈ standardSizes.
Proof.
  apply (mccb_size_is_standard threeCircuits). left.
Defined.

End Blocks.

Section Zoom.
Local Open Scope Q_scope.

Lemma setZoomMult_in_range button z :
  0.5 <= z <= 3.0 -> 0.5 <= setZoomMult button z <= 3.0.
Proof.
  intros Hz. destruct button; cbn [setZoomMult].
  - destruct (Q.max_spec 0.5 (z - 0.1)) as [[H E]|[H E]]; rewrite E; lra.
  - split; discriminate.
  - destruct (Q.min_spec 3.0 (z + 0.1)) as [[H E]|[H E]]; rewrite E; lra.
Qed.

(** X21: whatever sequence of zoom buttons is clicked, [zoomMult] stays
    between 0.5 and 3.0. *)
Theorem zoomMult_stays_in_range clicks :
  0.5 <= zoomAfter clicks <= 3.0.
Proof.
  unfold zoomAfter.
  assert (0.5 <= 1.0 <= 3.0) as H by (split; discriminate).
  revert H. generalize 1.0. induction clicks as [|b clicks IH]; intros z Hz.
  - exact Hz.
  - cbn [fold_left]. apply IH, setZoomMult_in_range, Hz.
Qed.

(** X22: for a wall of non-negative width in a container of
    non-negative size, at a zoom factor between 0 and 3, the scale is
    defined and never negative; a wall that is at least as wide and as
    high is never drawn at a larger scale, nor the person beside it any
    taller; the scale is at most three times [MAX_PPM], and at most
    [MAX_PPM] when the zoom factor is at most 1. *)
Theorem scene_scale_capped_and_antitone
    v widthMm heightMm widthMm' heightMm' zoomMult :
  0 <= widthMm <= widthMm' -> heightMm <= heightMm' ->
  0 <= CONTAINER_WIDTH v -> 0 <= CONTAINER_HEIGHT v ->
  0 <= zoomMult <= 3 ->
  exists s s',
    scene v widthMm heightMm zoomMult = Some s /\
    scene v widthMm' heightMm' zoomMult = Some s' /\
    0 <= ppm s' <= ppm s /\
    personHeightPx s' <= personHeightPx s /\
    ppm s <= 3 * MAX_PPM v /\
    (zoomMult <= 1 -> ppm s <= MAX_PPM v).
Proof.
  intros [Hw Hww] Hhh HCW HCH [Hz0 Hz3]. unfold scene.
  set (totalW := PERSON_WIDTH_EST_M + GAP_M + widthMm / 1000).
  set (totalW' := PERSON_WIDTH_EST_M + GAP_M + widthMm' / 1000).
  set (totalH := Qmax PERSON_HEIGHT_M (heightMm / 1000)).
  set (totalH' := Qmax PERSON_HEIGHT_M (heightMm' / 1000)).
  assert (0 <= widthMm / 1000) as HwM by (apply Qle_shift_div_l; lra).
  assert (widthMm / 1000 <= widthMm' / 1000) as HwM'
    by (apply Qdiv_mono_l; [reflexivity|exact Hww]).
  assert (heightMm / 1000 <= heightMm' / 1000) as HhM'
    by (apply Qdiv_mono_l; [reflexivity|exact Hhh]).
  assert (0 < totalW /\ totalW <= totalW') as [HtW HtWW].
  { unfold totalW, totalW', PERSON_WIDTH_EST_M, GAP_M. lra. }
  assert (PERSON_HEIGHT_M <= totalH) as HpH by apply Q.le_max_l.
  assert (totalH <= totalH') as HtHH
    by (apply Q.max_le_compat_l; exact HhM').
  assert (0 < totalH) as HtH by (unfold PERSON_HEIGHT_M in HpH; lra).
  rewrite !div_Some by lra. eexists _, _.
  split; [reflexivity|]. split; [reflexivity|].
  cbn [ppm personHeightPx].
  set (base := Qmin (Qmin (CONTAINER_WIDTH v / totalW)
                          (CONTAINER_HEIGHT v / totalH)) (MAX_PPM v)).
  set (base' := Qmin (Qmin (CONTAINER_WIDTH v / totalW')
                           (CONTAINER_HEIGHT v / totalH')) (MAX_PPM v)).
  assert (0 < MAX_PPM v) as HM
    by (unfold MAX_PPM; destruct (isFullscreen v); reflexivity).
  assert (base' <= base) as Hbb.
  { unfold base, base'. apply Q.min_le_compat_r, Q.min_le_compat.
    - apply Qdiv_antimono; assumption.
    - apply Qdiv_antimono; assumption. }
  assert (base <= MAX_PPM v) as HbM by apply Q.le_min_r.
  assert (0 <= base') as Hb0.
  { unfold base'. apply Q.min_glb; [apply Q.min_glb|lra].
    - apply Qle_shift_div_l; lra.
    - apply Qle_shift_div_l; lra. }
  unfold PERSON_HEIGHT_M.
  split; [nra|]. split; [nra|]. split; [nra|].
  intros Hz1. nra.
Qed.

Lemma scene_scale_capped_and_antitone_witness :
  exists s s',
    scene windowed 5000 3000 1 = Some s /\
    scene windowed 8000 4900 1 = Some s' /\
    0 <= ppm s' <= ppm s /\ ppm s <= MAX_PPM windowed.
Proof.
  destruct (scene_scale_capped_and_antitone windowed 5000 3000 8000 4900 1)
    as (s & s' & Hs & Hs' & Hle & _ & _ & Hcap);
    [split; discriminate | discriminate | discriminate | discriminate
    | split; discriminate |].
  exists s, s'. split; [exact Hs|]. split; [exact Hs'|].
  split; [exact Hle|]. apply Hcap. discriminate.
Defined.

End Zoom.
